(** * Relay performance analysis: the probe, the orchestrator and the
      overlap analyzer of [useRelayPerformanceTest]

    A shallow embedding of the hook [useRelayPerformanceTest] and of the
    four functions it closes over ([testRelayPerformance], [getFollowers],
    [calculateOverlap], [startTest]), of the hook [useNip65RelayList]
    ([parseRelayTags], [fetchRelayList]) and of the part of the page that
    edits the list of relays and picks the best relay of a run.

    Conventions of the embedding:
    - a JavaScript number that holds an integer (a length, a counter, a
      [Date.now()] reading, a difference of those) is a [Z]; a number
      obtained by a division (bandwidth, progress, overlap percentage) is an
      exact rational [Q];
    - [string[]] is [list string], [new Set(xs)] is a [gset string];
    - a promise that may reject and a [try]/[catch] block are values of
      [Exc], the thrown value being either an [Error] with its message or
      something else;
    - the calls of the React state setters are recorded as a list of
      [Action]s in program order, together with the awaits of the network;
      a [RunState] is obtained by replaying them, and the states that the
      hook goes through are those at the awaits and at the return, where
      React commits the calls made so far. *)

From Stdlib Require Import ZArith QArith Lia.
From stdpp Require Import base list strings gmap pretty sorting.

Local Open Scope Z_scope.

(* The solvers of stdpp clear hypotheses that may already be gone. *)
Set Warnings "-clear-no-such-hyp".

(** ** Data model *)

(** [NostrEvent] of @nostrify/nostrify: the fields of a signed event. *)
Record NostrEvent := {
  id : string;
  pubkey : string;
  created_at : Z;
  kind : Z;
  tags : list (list string);
  content : string;
  sig : string;
}.

Record RelayPerformanceResult := {
  relay : string;
  success : bool;
  latency : Z;
  bandwidth : Q;
  duration : Z;
  eventCount : Z;
  totalBytes : Z;
  followerCount : Z;
  eventIds : list string;
  error : option string;
}.

Record RelayOverlapResult := {
  relay1 : string;
  relay2 : string;
  relay1Only : Z;
  relay2Only : Z;
  common : Z;
  relay1Total : Z;
  relay2Total : Z;
  overlapPercentage : Q;
}.

(** [xs.length] as a JavaScript number. *)
Definition len {A} (xs : list A) : Z := Z.of_nat (length xs).

(** ** Overlap analyzer *)

(** Body of the inner loop of [calculateOverlap]: the comparison of one
    pair of successful results. *)
Definition compareRelays (r1 r2 : RelayPerformanceResult) : RelayOverlapResult :=
  let set2 : gset string := list_to_set (eventIds r2) in
  let common := len (filter (λ id, id ∈ set2) (eventIds r1)) in
  let relay1Only := len (eventIds r1) - common in
  let relay2Only := len (eventIds r2) - common in
  let totalUnique := relay1Only + relay2Only + common in
  let overlapPercentage :=
    if 0 <? totalUnique
    then (inject_Z common / inject_Z totalUnique * 100)%Q
    else 0%Q in
  {| relay1 := relay r1;
     relay2 := relay r2;
     relay1Only := relay1Only;
     relay2Only := relay2Only;
     common := common;
     relay1Total := len (eventIds r1);
     relay2Total := len (eventIds r2);
     overlapPercentage := overlapPercentage |}.

(** The two nested loops [for i] / [for j = i + 1]: the head of the list is
    compared with every later element, in order, then the loop moves on to
    the tail.  The results are pushed in exactly this order. *)
Fixpoint comparePairs (rs : list RelayPerformanceResult) : list RelayOverlapResult :=
  match rs with
  | [] => []
  | r1 :: rest => map (compareRelays r1) rest ++ comparePairs rest
  end.

Definition calculateOverlap (results : list RelayPerformanceResult)
  : list RelayOverlapResult :=
  let successfulResults := filter (λ r, success r = true) results in
  comparePairs successfulResults.

(** ** Exceptions *)

(** A thrown value: an [Error] object with its [message], or anything else. *)
Inductive Thrown :=
  | ThrownError (message : string)
  | ThrownOther.

(** [err instanceof Error ? err.message : fallback]. *)
Definition errorMessage (err : Thrown) (fallback : string) : string :=
  match err with
  | ThrownError message => message
  | ThrownOther => fallback
  end.

(** Outcome of an expression that may throw, or of an awaited promise. *)
Inductive Exc (A : Type) :=
  | Ret (a : A)
  | Throw (err : Thrown).
Arguments Ret {A} a.
Arguments Throw {A} err.

#[global] Instance Exc_ret : MRet Exc := λ A a, Ret a.
#[global] Instance Exc_bind : MBind Exc := λ A B k m,
  match m with
  | Ret a => k a
  | Throw err => Throw err
  end.

(** ** Relay probe *)

(** What the outside world contributes to one call of
    [testRelayPerformance]: whether the dynamic import resolves, the three
    readings of [Date.now()] in program order, and the outcome of
    [testPool.query] (a rejection covers the 30 s abort signal, a connection
    error and a malformed response alike). *)
Record ProbeEnv := {
  importOutcome : Exc unit;
  startTime : Z;
  queryOutcome : Exc (list NostrEvent);
  endTime : Z;
  firstIterationTime : Z;
}.

(** The mutable locals of the [for (const event of events)] loop. *)
Record ProbeLocals := {
  firstEventTime : option Z;
  loopEventCount : Z;
  loopTotalBytes : Z;
  loopEventIds : list string;
}.

Definition probeLocalsInit : ProbeLocals :=
  {| firstEventTime := None; loopEventCount := 0; loopTotalBytes := 0;
     loopEventIds := [] |}.

Section Probe.

(** [calculateEventSize]: the UTF-8 length of [JSON.stringify(event)].  The
    serialiser belongs to the platform, so the size function is a
    parameter of the development. *)
Variable calculateEventSize : NostrEvent → Z.

(** One iteration of the loop; [now] is what [Date.now()] returns if it is
    called in this iteration. *)
Definition probeIteration (now : Z) (st : ProbeLocals) (event : NostrEvent)
  : ProbeLocals :=
  {| firstEventTime :=
       match firstEventTime st with
       | None => Some now
       | Some t => Some t
       end;
     loopEventCount := loopEventCount st + 1;
     loopTotalBytes := loopTotalBytes st + calculateEventSize event;
     loopEventIds := loopEventIds st ++ [id event] |}.

(** The [try] block of [testRelayPerformance]. *)
Definition testRelayPerformanceTry (env : ProbeEnv) (relay : string)
    (followers : list string) : Exc RelayPerformanceResult :=
  importOutcome env;;
  let startTime := startTime env in
  events ← queryOutcome env;
  let endTime := endTime env in
  let st := foldl (probeIteration (firstIterationTime env)) probeLocalsInit events in
  let duration := endTime - startTime in
  let latency :=
    match firstEventTime st with
    | Some t => if t =? 0 then duration else t - startTime
    | None => duration
    end in
  let bandwidth :=
    if 0 <? duration
    then (inject_Z (loopTotalBytes st) / inject_Z duration * 1000)%Q
    else 0%Q in
  mret {| relay := relay;
          success := true;
          latency := latency;
          bandwidth := bandwidth;
          duration := duration;
          eventCount := loopEventCount st;
          totalBytes := loopTotalBytes st;
          followerCount := len followers;
          eventIds := loopEventIds st;
          error := None |}.

(** The object built by the [catch] block. *)
Definition probeFailure (relay : string) (followers : list string)
    (err : Thrown) : RelayPerformanceResult :=
  {| relay := relay;
     success := false;
     latency := 0;
     bandwidth := 0%Q;
     duration := 0;
     eventCount := 0;
     totalBytes := 0;
     followerCount := len followers;
     eventIds := [];
     error := Some (errorMessage err "Unknown error") |}.

Definition testRelayPerformance (env : ProbeEnv) (userPubkey relay : string)
    (followers : list string) : RelayPerformanceResult :=
  match testRelayPerformanceTry env relay followers with
  | Ret result => result
  | Throw err => probeFailure relay followers err
  end.

End Probe.

(** ** Run state and its setters *)

(** The six [useState] cells of the hook. *)
Module RunState.
Record t := {
  isRunning : bool;
  results : option (list RelayPerformanceResult);
  overlapResults : option (list RelayOverlapResult);
  progress : Q;
  currentPhase : string;
  error : option string;
}.

(** The initial values passed to [useState]. *)
Definition initial : t :=
  {| isRunning := false; results := None; overlapResults := None;
     progress := 0%Q; currentPhase := ""; error := None |}.
End RunState.

(** What a run does, in program order: the calls of the state setters and
    the two kinds of request sent to the network. *)
Inductive Action :=
  | SetIsRunning (b : bool)
  | SetResults (rs : option (list RelayPerformanceResult))
  | SetOverlapResults (os : option (list RelayOverlapResult))
  | SetProgress (p : Q)
  | SetCurrentPhase (phase : string)
  | SetError (e : option string)
  | QueryFollowList (userPubkey : string)
  | ProbeRelay (relay : string) (followers : list string).

Definition applyAction (st : RunState.t) (a : Action) : RunState.t :=
  let 'RunState.Build_t r rs os p ph e := st in
  match a with
  | SetIsRunning b => RunState.Build_t b rs os p ph e
  | SetResults rs' => RunState.Build_t r rs' os p ph e
  | SetOverlapResults os' => RunState.Build_t r rs os' p ph e
  | SetProgress p' => RunState.Build_t r rs os p' ph e
  | SetCurrentPhase ph' => RunState.Build_t r rs os p ph' e
  | SetError e' => RunState.Build_t r rs os p ph e'
  | QueryFollowList _ => st
  | ProbeRelay _ _ => st
  end.

Definition applyActions (st : RunState.t) (acts : list Action) : RunState.t :=
  foldl applyAction st acts.

(** The action is an [await] of the network (the follow-list query, or the
    probe of a relay with its queries).  The page is mounted with
    [createRoot], so the setter calls that a callback makes between two
    such awaits, or between the last one and its return, reach the state
    cells together, in one commit: only there is a new state of the hook
    to be seen. *)
Definition awaitsNetwork (a : Action) : bool :=
  match a with
  | QueryFollowList _ | ProbeRelay _ _ => true
  | _ => false
  end.

(** The log cut at the awaits: the setter calls of each commit, [batch]
    being the calls made since the last await. *)
Fixpoint batches (batch : list Action) (log : list Action) : list (list Action) :=
  match log with
  | [] => [batch]
  | a :: log' =>
      if awaitsNetwork a then batch :: batches [] log'
      else batches (batch ++ [a]) log'
  end.

(** One step of a run, from one state of the hook to the next: the state
    before the commit, the setter calls committed, the state after it. *)
Record Step := {
  before : RunState.t;
  calls : list Action;
  after : RunState.t;
}.

(** The commits of a list of batches, from the state [st]; without a
    setter call there is nothing to commit. *)
Fixpoint steps (st : RunState.t) (bs : list (list Action)) : list Step :=
  match bs with
  | [] => []
  | [] :: bs' => steps st bs'
  | batch :: bs' =>
      {| before := st; calls := batch; after := applyActions st batch |}
      :: steps (applyActions st batch) bs'
  end.

(** ** Effectful code: a log of actions and a possible exception *)

Record Run (A : Type) := MkRun {
  performed : list Action;
  outcome : Exc A;
}.
Arguments MkRun {A} performed outcome.
Arguments performed {A} r.
Arguments outcome {A} r.

#[global] Instance Run_ret : MRet Run := λ A a, MkRun [] (Ret a).
#[global] Instance Run_bind : MBind Run := λ A B k m,
  match outcome m with
  | Ret a => let rest := k a in
             MkRun (performed m ++ performed rest) (outcome rest)
  | Throw err => MkRun (performed m) (Throw err)
  end.

(** A call of a setter. *)
Definition emit (a : Action) : Run unit := MkRun [a] (Ret tt).

(** [await] of a request to the network with the given outcome. *)
Definition await {A} (request : Action) (result : Exc A) : Run A :=
  MkRun [request] result.

Definition throw {A} (err : Thrown) : Run A := MkRun [] (Throw err).

(** [try { m } catch (err) { handler err }]. *)
Definition tryCatch {A} (m : Run A) (handler : Thrown → Run A) : Run A :=
  match outcome m with
  | Ret a => m
  | Throw err =>
      MkRun (performed m ++ performed (handler err)) (outcome (handler err))
  end.

(** [try { m } finally { cleanup }], for a [cleanup] that does not throw. *)
Definition tryFinally {A} (m : Run A) (cleanup : Run unit) : Run A :=
  MkRun (performed m ++ performed cleanup) (outcome m).

(** Unfolds the combinators of [Run] so that a run reduces to its log and
    its outcome. *)
Ltac run_unfold :=
  unfold tryFinally, tryCatch, emit, await, throw,
         mbind, Run_bind, mret, Run_ret in *;
  cbn [performed outcome] in *.

(** The action is a call of [setResults] with a list. *)
Definition publishesCall (a : Action) : bool :=
  match a with
  | SetResults (Some _) => true
  | _ => false
  end.

(** The step takes [results] from [null] to a list. *)
Definition publishesResults (s : Step) : bool :=
  match RunState.results (before s), RunState.results (after s) with
  | None, Some _ => true
  | _, _ => false
  end.

(** ** Strings *)

Fixpoint dropChars (n : nat) (s : string) : string :=
  match n, s with
  | O, _ => s
  | S n', String _ s' => dropChars n' s'
  | S _, EmptyString => EmptyString
  end.

(** [s.replace(pattern, replacement)] for a string pattern: the first
    occurrence only. *)
Fixpoint replaceFirst (pattern replacement s : string) : string :=
  if String.prefix pattern s
  then replacement +:+ dropChars (String.length pattern) s
  else match s with
       | EmptyString => EmptyString
       | String c s' => String c (replaceFirst pattern replacement s')
       end.

(** ** Follower resolver *)

(** The filter predicate [tag[0] === 'p' && tag[1]]: an index out of range
    reads [undefined], and both [undefined] and the empty string are
    falsy. *)
Definition isFollowTag (tag : list string) : bool :=
  match tag !! 0%nat with
  | Some discriminator =>
      bool_decide (discriminator = "p") &&
      match tag !! 1%nat with
      | Some value => negb (bool_decide (value = ""))
      | None => false
      end
  | None => false
  end.

(** The map function [tag => tag[1]].  It is only applied to tags that
    passed [isFollowTag], whose second element exists, so the default is
    never produced (see [isFollowTag_spec]). *)
Definition tagValue (tag : list string) : string :=
  default "" (tag !! 1%nat).

Definition extractFollowers (followEvent : NostrEvent) : list string :=
  take 50 (map tagValue (filter (λ tag, isFollowTag tag = true) (tags followEvent))).

(** The [try] block of [getFollowers]; [followQuery] is the outcome of the
    awaited [nostr.query] (its rejection covers the 15 s abort signal). *)
Definition getFollowersTry (followQuery : Exc (list NostrEvent))
    (userPubkey : string) : Run (list string) :=
  emit (SetCurrentPhase "Fetching your follow list...");;
  emit (SetProgress 10);;
  followEvents ← await (QueryFollowList userPubkey) followQuery;
  match followEvents with
  | [] => throw (ThrownError "No follow list found. Please follow some users first.")
  | followEvent :: _ =>
      let followers := extractFollowers followEvent in
      if bool_decide (length followers = 0%nat)
      then throw (ThrownError "Your follow list is empty. Please follow some users first.")
      else emit (SetProgress 25);; mret followers
  end.

Definition getFollowers (followQuery : Exc (list NostrEvent))
    (userPubkey : string) : Run (list string) :=
  tryCatch (getFollowersTry followQuery userPubkey)
    (λ err, throw (ThrownError (errorMessage err "Failed to fetch follow list"))).

(** ** Probe orchestrator *)

(** What the network answers during one run: the outcome of the follow-list
    query, and the environment of the probe of the relay at each index. *)
Record World := {
  followQuery : Exc (list NostrEvent);
  probeEnv : nat → ProbeEnv;
}.

Section Orchestrator.

Variable calculateEventSize : NostrEvent → Z.
Variable world : World.
Variable userPubkey : string.

(** The loop [for (let i = 0; i < relays.length; i++)], entered at index
    [i] with [remaining] the relays from [i] on and [total] the value of
    [relays.length]. *)
Fixpoint probeRelays (followers : list string) (total : Z) (i : nat)
    (remaining : list string) (testResults : list RelayPerformanceResult)
  : Run (list RelayPerformanceResult) :=
  match remaining with
  | [] => mret testResults
  | relay :: rest =>
      emit (SetCurrentPhase ("Analyzing " +:+ replaceFirst "wss://" "" relay +:+ "..."));;
      emit (SetProgress (30 + inject_Z (Z.of_nat i) / inject_Z total * 60)%Q);;
      emit (ProbeRelay relay followers);;
      let result :=
        testRelayPerformance calculateEventSize (probeEnv world i)
          userPubkey relay followers in
      probeRelays followers total (S i) rest (testResults ++ [result])
  end.

(** The [try] block of [startTest]. *)
Definition startTestTry (relays : list string) : Run unit :=
  followers ← getFollowers (followQuery world) userPubkey;
  emit (SetCurrentPhase ("Analyzing " +:+ pretty (len relays) +:+ " relays with "
                         +:+ pretty (len followers) +:+ " followers..."));;
  emit (SetProgress 30);;
  testResults ← probeRelays followers (len relays) 0 relays [];
  emit (SetCurrentPhase "Calculating overlap...");;
  emit (SetProgress 95);;
  let overlap := calculateOverlap testResults in
  emit (SetOverlapResults (Some overlap));;
  emit (SetCurrentPhase "Analysis completed!");;
  emit (SetProgress 100);;
  emit (SetResults (Some testResults));;
  let failedTests := filter (λ r, success r = false) testResults in
  if bool_decide (len failedTests = len testResults)
  then emit (SetError (Some "All relays failed analysis. Please check your internet connection and try again."))
  else if 0 <? len failedTests
  then emit (SetError (Some (pretty (len failedTests) +:+ " out of "
                             +:+ pretty (len testResults) +:+ " relays failed analysis.")))
  else mret tt.

(** [startTest]; [isRunning] is the value of the state cell that the
    callback reads. *)
Definition startTest (isRunning : bool) (relays : list string) : Run unit :=
  if isRunning then mret tt
  else
    emit (SetIsRunning true);;
    emit (SetResults None);;
    emit (SetOverlapResults None);;
    emit (SetProgress 0);;
    emit (SetError None);;
    tryFinally
      (tryCatch (startTestTry relays)
         (λ err, emit (SetError (Some (errorMessage err "Analysis failed")));;
                 emit (SetProgress 0)))
      (emit (SetIsRunning false)).

(** A run started in the state [st] of the hook: the commits it goes
    through and the state it leaves. *)
Definition runSteps (st : RunState.t) (relays : list string) : list Step :=
  steps st (batches [] (performed (startTest (RunState.isRunning st) relays))).

Definition runFinal (st : RunState.t) (relays : list string) : RunState.t :=
  applyActions st (performed (startTest (RunState.isRunning st) relays)).

End Orchestrator.

(** ** Sample inputs *)

(** A successful probe result that carries the given identifiers. *)
Definition sampleSuccess (name : string) (ids : list string) : RelayPerformanceResult :=
  {| relay := name; success := true; latency := 11; bandwidth := 0%Q;
     duration := 10; eventCount := len ids; totalBytes := 0;
     followerCount := 1; eventIds := ids; error := None |}.

Definition sampleEvent (i : string) (tgs : list (list string)) : NostrEvent :=
  {| id := i; pubkey := "author"; created_at := 1700000000; kind := 1;
     tags := tgs; content := "hello"; sig := "" |}.

(** A stand-in for the platform serialiser, used on sample inputs only. *)
Definition sampleEventSize (event : NostrEvent) : Z :=
  Z.of_nat (String.length (content event)).

(** A follow list with one usable tag, a ["p"] tag without a value, a ["p"]
    tag with an empty value and a tag of another kind. *)
Definition sampleFollowList : NostrEvent :=
  sampleEvent "follows" [["p"; "alice"]; ["p"]; ["p"; ""]; ["e"; "x"]].

(** A probe whose query returns one event: the clock reads 1000 before the
    query, 1010 after it and 1011 in the first iteration of the loop. *)
Definition sampleProbeEnv : ProbeEnv :=
  {| importOutcome := Ret tt; startTime := 1000;
     queryOutcome := Ret [sampleEvent "a" []]; endTime := 1010;
     firstIterationTime := 1011 |}.

(** A probe whose query is rejected. *)
Definition sampleFailingEnv : ProbeEnv :=
  {| importOutcome := Ret tt; startTime := 1000;
     queryOutcome := Throw (ThrownError "timeout"); endTime := 1010;
     firstIterationTime := 1011 |}.

Definition sampleWorld : World :=
  {| followQuery := Ret [sampleFollowList];
     probeEnv := λ i, if bool_decide (i = 1%nat) then sampleFailingEnv else sampleProbeEnv |}.

(** ** Relay-list metadata (NIP-65) *)

Record Nip65Relay := {
  url : string;
  read : bool;
  write : bool;
}.

(** Body of the loop of [parseRelayTags]: what one tag adds to [relays]. *)
Definition parseRelayTag (relays : list Nip65Relay) (tag : list string)
  : list Nip65Relay :=
  match tag !! 0%nat, tag !! 1%nat with
  | Some discriminator, Some value =>
      if bool_decide (discriminator = "r") && negb (bool_decide (value = ""))
      then
        let url := value in
        let marker := tag !! 2%nat in
        let read := true in
        let write := true in
        let '(read, write) :=
          if bool_decide (marker = Some "read") then (read, false)
          else if bool_decide (marker = Some "write") then (false, write)
          else (read, write) in
        relays ++ [{| url := url; read := read; write := write |}]
      else relays
  | _, _ => relays
  end.

Definition parseRelayTags (event : NostrEvent) : list Nip65Relay :=
  foldl parseRelayTag [] (tags event).

(** The two [useState] cells of [useNip65RelayList]. *)
Module RelayListState.
Record t := {
  isLoading : bool;
  error : option string;
}.

Definition initial : t := {| isLoading := false; error := None |}.

Definition setIsLoading (b : bool) (st : t) : t :=
  {| isLoading := b; error := error st |}.

Definition setError (e : option string) (st : t) : t :=
  {| isLoading := isLoading st; error := e |}.
End RelayListState.

(** The [try] block of [fetchRelayList]; [relayQuery] is the outcome of the
    awaited [nostr.query] for kind 10002. *)
Definition fetchRelayListTry (relayQuery : Exc (list NostrEvent))
  : Exc (list Nip65Relay) :=
  events ← relayQuery;
  match events with
  | [] => Throw (ThrownError "No NIP-65 relay list found for this user")
  | relayListEvent :: _ =>
      let relays := parseRelayTags relayListEvent in
      if bool_decide (length relays = 0%nat)
      then Throw (ThrownError "No relays found in NIP-65 relay list")
      else mret relays
  end.

(** [fetchRelayList], with the state of the hook passed explicitly: the
    state it leaves and what the promise settles to. *)
Definition fetchRelayList (relayQuery : Exc (list NostrEvent))
    (st : RelayListState.t) : RelayListState.t * Exc (list Nip65Relay) :=
  let st := RelayListState.setIsLoading true st in
  let st := RelayListState.setError None st in
  match fetchRelayListTry relayQuery with
  | Ret relays => (RelayListState.setIsLoading false st, Ret relays)
  | Throw err =>
      let errorMessage := errorMessage err "Failed to fetch relay list" in
      let st := RelayListState.setError (Some errorMessage) st in
      (RelayListState.setIsLoading false st, Throw (ThrownError errorMessage))
  end.

(** ** The page: the list of relays to test *)

(** The [useState] cells of the page that the relay list depends on. *)
Record PageState := {
  testRelays : list string;
  newRelay : string;
  hasLoadedNip65 : bool;
  showManualEntry : bool;
}.

Definition defaultRelays : list string :=
  ["wss://relay.primal.net"; "wss://relay.damus.io"].

(** [xs.filter((_, i) => keep(i))], entered at index [i]. *)
Fixpoint filterByIndex {A} (keep : nat → bool) (i : nat) (xs : list A) : list A :=
  match xs with
  | [] => []
  | x :: rest =>
      if keep i then x :: filterByIndex keep (S i) rest
      else filterByIndex keep (S i) rest
  end.

(** [[...new Set(xs)]]: a set iterates in insertion order, so every value
    is kept at its first occurrence. *)
Definition uniqueInOrder (xs : list string) : list string :=
  foldl (λ seen x, if bool_decide (x ∈ seen) then seen else seen ++ [x]) [] xs.

Section Page.

(** [String.prototype.trim], a function of the platform. *)
Variable trim : string → string.

Definition addRelay (st : PageState) : PageState :=
  if bool_decide (trim (newRelay st) = "") then st
  else
    let relayUrl := trim (newRelay st) in
    let relayUrl :=
      if negb (String.prefix "wss://" relayUrl) && negb (String.prefix "ws://" relayUrl)
      then "wss://" +:+ relayUrl
      else relayUrl in
    let relays :=
      if negb (bool_decide (relayUrl ∈ testRelays st))
      then testRelays st ++ [relayUrl]
      else testRelays st in
    {| testRelays := relays; newRelay := "";
       hasLoadedNip65 := hasLoadedNip65 st;
       showManualEntry := showManualEntry st |}.

End Page.

(** The [disabled] attribute of the start button. *)
Definition startDisabled (isRunning : bool) (st : PageState) : bool :=
  isRunning || bool_decide (len (testRelays st) = 0).

(** [handleStartTest], the only caller of [startTest]; [user] is the public
    key of the logged-in user, if any, and [isRunning] the value of the
    state cell that the page and the callback read. *)
Definition handleStartTest (calculateEventSize : NostrEvent → Z) (world : World)
    (user : option string) (isRunning : bool) (st : PageState) : Run unit :=
  match user with
  | None => mret tt
  | Some userPubkey =>
      startTest calculateEventSize world userPubkey isRunning (testRelays st)
  end.

(** A click on the start button: a disabled button does not call its
    handler. *)
Definition clickStart (calculateEventSize : NostrEvent → Z) (world : World)
    (user : option string) (isRunning : bool) (st : PageState) : Run unit :=
  if startDisabled isRunning st then mret tt
  else handleStartTest calculateEventSize world user isRunning st.

(** The click handler of a quick-add button. *)
Definition quickAddRelay (relay : string) (st : PageState) : PageState :=
  let relayUrl := "wss://" +:+ relay in
  if negb (bool_decide (relayUrl ∈ testRelays st))
  then {| testRelays := testRelays st ++ [relayUrl]; newRelay := newRelay st;
          hasLoadedNip65 := hasLoadedNip65 st;
          showManualEntry := showManualEntry st |}
  else st.

Definition removeRelay (index : nat) (st : PageState) : PageState :=
  {| testRelays := filterByIndex (λ i, negb (i =? index)%nat) 0 (testRelays st);
     newRelay := newRelay st;
     hasLoadedNip65 := hasLoadedNip65 st;
     showManualEntry := showManualEntry st |}.

Definition switchToManualEntry (st : PageState) : PageState :=
  {| testRelays := defaultRelays; newRelay := newRelay st;
     hasLoadedNip65 := false; showManualEntry := true |}.

(** [loadNip65Relays(showToast)] once the user is known: [fetched] is what
    [fetchRelayList] settles to and [seenHasLoadedNip65] the value of
    [hasLoadedNip65] that the callback closed over.  The result is the new
    state and the description of the toast, if one is shown. *)
Definition loadNip65Relays (fetched : Exc (list Nip65Relay))
    (seenHasLoadedNip65 showToast : bool) (st : PageState)
  : PageState * option string :=
  match fetched with
  | Ret relays =>
      let relayUrls := map url relays in
      let uniqueRelays := uniqueInOrder relayUrls in
      ({| testRelays := uniqueRelays; newRelay := newRelay st;
          hasLoadedNip65 := true; showManualEntry := showManualEntry st |},
       if showToast
       then Some ("Loaded " +:+ pretty (len uniqueRelays) +:+ " relay"
                  +:+ (if bool_decide (len uniqueRelays = 1) then "" else "s")
                  +:+ " from your relay list")
       else None)
  | Throw _ =>
      (if negb seenHasLoadedNip65
       then {| testRelays := defaultRelays; newRelay := newRelay st;
               hasLoadedNip65 := hasLoadedNip65 st; showManualEntry := true |}
       else st,
       None)
  end.

(** [xs.reduce(f)] without an initial value, on a non-empty array. *)
Definition reduce1 {A} (f : A → A → A) (xs : list A) : option A :=
  match xs with
  | [] => None
  | x :: rest => Some (foldl f x rest)
  end.

(** The "Fastest Latency" and "Highest Bandwidth" entries of the footer,
    rendered when more than one relay succeeded. *)
Definition fastestLatency (results : list RelayPerformanceResult)
  : option RelayPerformanceResult :=
  let successful := filter (λ r, success r = true) results in
  if 1 <? len successful
  then reduce1 (λ prev curr, if latency prev <? latency curr then prev else curr)
               successful
  else None.

Definition highestBandwidth (results : list RelayPerformanceResult)
  : option RelayPerformanceResult :=
  let successful := filter (λ r, success r = true) results in
  if 1 <? len successful
  then reduce1 (λ prev curr,
                  if Qlt_le_dec (bandwidth curr) (bandwidth prev) then prev else curr)
               successful
  else None.

(** Sample inputs for the relay list. *)
Definition sampleRelayList : NostrEvent :=
  sampleEvent "relays"
    [["r"; "wss://a.example"]; ["r"; "wss://b.example"; "read"];
     ["r"; "wss://c.example"; "write"]; ["r"]; ["r"; ""]; ["p"; "alice"];
     ["r"; "wss://a.example"]].

(** A stand-in for the platform's [trim], used on sample inputs only: it
    removes leading spaces. *)
Fixpoint sampleTrim (s : string) : string :=
  match s with
  | String c rest =>
      if Ascii.eqb c (Ascii.ascii_of_nat 32) then sampleTrim rest else s
  | EmptyString => s
  end.

(** ** Vocabulary for whole runs *)

(** The action only concerns the display or the network: it is none of
    [setIsRunning], [setResults], [setOverlapResults], [setError]. *)
Definition displayOnly (a : Action) : bool :=
  match a with
  | SetCurrentPhase _ | SetProgress _ | QueryFollowList _ | ProbeRelay _ _ => true
  | _ => false
  end.

(** The relay and the followers of a probe request. *)
Definition probeRequest (a : Action) : option (string * list string) :=
  match a with
  | ProbeRelay relayUrl followers => Some (relayUrl, followers)
  | _ => None
  end.

(** The value passed to [setProgress]. *)
Definition progressUpdate (a : Action) : option Q :=
  match a with
  | SetProgress p => Some p
  | _ => None
  end.

(** The results of the probes of a run, in the order of the relay list:
    the relay at index [i] is probed in the environment of index [i]. *)
Definition probeResults (calculateEventSize : NostrEvent → Z) (world : World)
    (userPubkey : string) (followers relays : list string)
  : list RelayPerformanceResult :=
  imap (λ i relayUrl,
          testRelayPerformance calculateEventSize (probeEnv world i)
            userPubkey relayUrl followers) relays.

(** The message that the end of the [try] block of [startTest] passes to
    [setError], if it calls it (see [startTestTry_resolved]). *)
Definition failureSummary (testResults : list RelayPerformanceResult)
  : option string :=
  let failedTests := filter (λ r, success r = false) testResults in
  if bool_decide (len failedTests = len testResults)
  then Some "All relays failed analysis. Please check your internet connection and try again."
  else if 0 <? len failedTests
  then Some (pretty (len failedTests) +:+ " out of "
             +:+ pretty (len testResults) +:+ " relays failed analysis.")
  else None.

(** The action does not set the progress outside of the range 0 to 100. *)
Definition progressInRange (a : Action) : bool :=
  match a with
  | SetProgress p => Qle_bool 0 p && Qle_bool p 100
  | _ => true
  end.

(** The action is one that the follower resolver performs. *)
Definition resolverOnly (a : Action) : bool :=
  match a with
  | SetCurrentPhase _ | SetProgress _ | QueryFollowList _ => true
  | _ => false
  end.

(** A world in which the follow-list query finds nothing. *)
Definition sampleWorldNoFollowList : World :=
  {| followQuery := Ret []; probeEnv := λ _, sampleProbeEnv |}.

(** Three results for the footer of the page: two successes and a
    failure. *)
Definition sampleFooterResults : list RelayPerformanceResult :=
  [ {| relay := "wss://slow"; success := true; latency := 40; bandwidth := 900%Q;
       duration := 35; eventCount := 1; totalBytes := 30; followerCount := 1;
       eventIds := ["a"]; error := None |};
    {| relay := "wss://down"; success := false; latency := 0; bandwidth := 0%Q;
       duration := 0; eventCount := 0; totalBytes := 0; followerCount := 1;
       eventIds := []; error := Some "timeout" |};
    {| relay := "wss://fast"; success := true; latency := 12; bandwidth := 500%Q;
       duration := 10; eventCount := 1; totalBytes := 5; followerCount := 1;
       eventIds := ["a"]; error := None |} ].

(** * Properties *)

(** ** Overlap analyzer *)

Section OverlapFacts.

Implicit Types (r : RelayPerformanceResult) (o : RelayOverlapResult).

Lemma elem_of_comparePairs o rs :
  o ∈ comparePairs rs → ∃ r1 r2, r1 ∈ rs ∧ r2 ∈ rs ∧ o = compareRelays r1 r2.
Proof.
  induction rs as [|r rs IH]; simpl.
  - intros H. inversion H.
  - rewrite elem_of_app, list_elem_of_fmap.
    intros [(r2 & -> & Hr2)|Ho].
    + exists r, r2. repeat split; [left | by right].
    + destruct (IH Ho) as (r1 & r2 & H1 & H2 & ->).
      exists r1, r2. repeat split; by right.
Qed.

Lemma elem_of_calculateOverlap o results :
  o ∈ calculateOverlap results →
  ∃ r1 r2, (r1 ∈ results ∧ success r1 = true) ∧
           (r2 ∈ results ∧ success r2 = true) ∧ o = compareRelays r1 r2.
Proof.
  unfold calculateOverlap. intros Ho.
  destruct (elem_of_comparePairs _ _ Ho) as (r1 & r2 & H1 & H2 & ->).
  apply list_elem_of_filter in H1 as [Hs1 Hin1].
  apply list_elem_of_filter in H2 as [Hs2 Hin2].
  by exists r1, r2.
Qed.

(** The number of identifiers of the first list found in the set built
    from the second one is at most the length of either list, provided
    the first list has no repetition. *)
Lemma common_le_left (ids1 ids2 : list string) :
  (length (filter (λ i, i ∈ (list_to_set ids2 : gset string)) ids1) ≤ length ids1)%nat.
Proof. apply length_filter. Qed.

Lemma common_le_right (ids1 ids2 : list string) :
  NoDup ids1 →
  (length (filter (λ i, i ∈ (list_to_set ids2 : gset string)) ids1) ≤ length ids2)%nat.
Proof.
  intros Hnd. apply submseteq_length, NoDup_submseteq.
  - by apply NoDup_filter.
  - intros x Hx. apply list_elem_of_filter in Hx as [Hx _].
    by apply elem_of_list_to_set in Hx.
Qed.

(** The ratio [common / totalUnique * 100], as the code computes it. *)
Lemma percentage_range (c t : Z) :
  0 ≤ c ≤ t →
  let p := if 0 <? t then (inject_Z c / inject_Z t * 100)%Q else 0%Q in
  (0 <= p)%Q ∧ (p <= 100)%Q ∧ ((p == 0)%Q ↔ c = 0).
Proof.
  intros [Hc Hct]. destruct (0 <? t) eqn:Ht; simpl.
  - apply Z.ltb_lt in Ht. destruct t as [|t|t]; try lia.
    unfold Qle, Qeq, Qdiv, Qmult, Qinv, inject_Z; simpl.
    repeat split; try lia.
  - apply Z.ltb_ge in Ht. assert (c = 0) as -> by lia.
    unfold Qle, Qeq; simpl. repeat split; lia.
Qed.

End OverlapFacts.

(** C6.  Partition invariant: in every overlap record that
    [calculateOverlap] returns, for any input list, the identifiers seen
    only on one side plus the common ones add up to that side's total:
    [relay1Only + common = relay1Total] and
    [relay2Only + common = relay2Total]. *)
Theorem calculateOverlap_partition (results : list RelayPerformanceResult)
    (o : RelayOverlapResult) :
  o ∈ calculateOverlap results →
  relay1Only o + common o = relay1Total o ∧
  relay2Only o + common o = relay2Total o.
Proof.
  intros Ho.
  destruct (elem_of_calculateOverlap _ _ Ho) as (r1 & r2 & _ & _ & ->).
  unfold compareRelays; simpl. lia.
Qed.

Lemma calculateOverlap_partition_witness :
  let o := compareRelays (sampleSuccess "r1" ["a"; "a"]) (sampleSuccess "r2" ["a"]) in
  o ∈ calculateOverlap [sampleSuccess "r1" ["a"; "a"]; sampleSuccess "r2" ["a"]] ∧
  relay1Only o + common o = relay1Total o ∧
  relay2Only o + common o = relay2Total o.
Proof.
  assert (compareRelays (sampleSuccess "r1" ["a"; "a"]) (sampleSuccess "r2" ["a"])
          ∈ calculateOverlap [sampleSuccess "r1" ["a"; "a"]; sampleSuccess "r2" ["a"]])
    as Hin by (vm_compute; left).
  split; [exact Hin|].
  exact (calculateOverlap_partition _ _ Hin).
Defined.

(** C8.  Scenario A: two successful results whose identifiers are
    [a, b, c] and [b, c, d], with [a], [b], [c], [d] pairwise distinct, give
    exactly one overlap record, with [common = 2], [relay1Only = 1],
    [relay2Only = 1] and an overlap percentage of 50. *)
Theorem calculateOverlap_scenario_A (r1 r2 : RelayPerformanceResult)
    (a b c d : string) :
  NoDup [a; b; c; d] →
  success r1 = true → eventIds r1 = [a; b; c] →
  success r2 = true → eventIds r2 = [b; c; d] →
  ∃ o, calculateOverlap [r1; r2] = [o] ∧
       common o = 2 ∧ relay1Only o = 1 ∧ relay2Only o = 1 ∧
       (overlapPercentage o == 50)%Q.
Proof.
  intros Hnd Hs1 Hids1 Hs2 Hids2.
  apply NoDup_cons in Hnd as [Ha _].
  assert (filter (λ i, i ∈ (list_to_set [b; c; d] : gset string)) [a; b; c] = [b; c])
    as Hcommon.
  { rewrite filter_cons_False by set_solver.
    rewrite filter_cons_True by set_solver.
    rewrite filter_cons_True by set_solver.
    done. }
  exists (compareRelays r1 r2). split.
  - unfold calculateOverlap.
    rewrite filter_cons_True by done. rewrite filter_cons_True by done.
    done.
  - unfold compareRelays; simpl. rewrite Hids1, Hids2, Hcommon.
    repeat split.
Qed.

Lemma calculateOverlap_scenario_A_witness :
  ∃ o, calculateOverlap [sampleSuccess "r1" ["a"; "b"; "c"];
                         sampleSuccess "r2" ["b"; "c"; "d"]] = [o] ∧
       common o = 2 ∧ relay1Only o = 1 ∧ relay2Only o = 1 ∧
       (overlapPercentage o == 50)%Q.
Proof.
  apply (calculateOverlap_scenario_A _ _ "a" "b" "c" "d"); try reflexivity.
  apply (bool_decide_unpack _). vm_compute. exact I.
Defined.

(** C2, as stated, fails: two successful results with the duplicate-free
    identifier lists [a] and [b] share nothing, so the overlap percentage
    is 0 although [relay1Only + relay2Only + common] is 2. *)
Lemma calculateOverlap_zero_percentage_counterexample :
  let input := [sampleSuccess "r1" ["a"]; sampleSuccess "r2" ["b"]] in
  (∀ r, r ∈ input → success r = true → NoDup (eventIds r)) ∧
  ¬ (∀ o, o ∈ calculateOverlap input →
       ((0 <= overlapPercentage o)%Q ∧ (overlapPercentage o <= 100)%Q) ∧
       ((overlapPercentage o == 0)%Q ↔
        relay1Only o + relay2Only o + common o = 0)).
Proof.
  split.
  - intros r Hr _.
    apply list_elem_of_In in Hr. simpl in Hr.
    destruct Hr as [<-|[<-|[]]]; apply (bool_decide_unpack _); vm_compute; exact I.
  - intros H.
    destruct (H (compareRelays (sampleSuccess "r1" ["a"]) (sampleSuccess "r2" ["b"])))
      as [_ [Hzero _]].
    + vm_compute. left.
    + assert (2 = 0) as Habs by (apply Hzero; vm_compute; reflexivity).
      discriminate Habs.
Qed.

(** C2, amended.  When the successful entries of the input carry
    duplicate-free identifier lists, every overlap record has its
    percentage between 0 and 100; the percentage is 0 exactly when
    [common] is 0, which covers the case
    [relay1Only + relay2Only + common = 0]. *)
Theorem calculateOverlap_percentage_range (results : list RelayPerformanceResult)
    (o : RelayOverlapResult) :
  (∀ r, r ∈ results → success r = true → NoDup (eventIds r)) →
  o ∈ calculateOverlap results →
  ((0 <= overlapPercentage o)%Q ∧ (overlapPercentage o <= 100)%Q) ∧
  ((overlapPercentage o == 0)%Q ↔ common o = 0) ∧
  (relay1Only o + relay2Only o + common o = 0 → (overlapPercentage o == 0)%Q).
Proof.
  intros Hnd Ho.
  destruct (elem_of_calculateOverlap _ _ Ho) as (r1 & r2 & [Hin1 Hs1] & _ & ->).
  pose proof (common_le_left (eventIds r1) (eventIds r2)) as Hl.
  pose proof (common_le_right (eventIds r1) (eventIds r2) (Hnd _ Hin1 Hs1)) as Hr.
  unfold compareRelays; simpl.
  set (c := len (filter _ (eventIds r1))) in *.
  assert (0 ≤ c ≤ len (eventIds r1) ∧ c ≤ len (eventIds r2)) as (Hc & Hc2)
    by (unfold c, len; lia).
  destruct (percentage_range c
              (len (eventIds r1) - c + (len (eventIds r2) - c) + c))
    as (Hlo & Hhi & Hz); [lia|].
  simpl in Hlo, Hhi, Hz.
  repeat split; try assumption; try apply Hz.
  intros Hsum. apply Hz. lia.
Qed.

Lemma calculateOverlap_percentage_range_witness :
  let input := [sampleSuccess "r1" ["a"; "b"; "c"]; sampleSuccess "r2" ["b"; "c"; "d"]] in
  let o := compareRelays (sampleSuccess "r1" ["a"; "b"; "c"])
                         (sampleSuccess "r2" ["b"; "c"; "d"]) in
  ((0 <= overlapPercentage o)%Q ∧ (overlapPercentage o <= 100)%Q) ∧
  ((overlapPercentage o == 0)%Q ↔ common o = 0) ∧
  (relay1Only o + relay2Only o + common o = 0 → (overlapPercentage o == 0)%Q).
Proof.
  apply (calculateOverlap_percentage_range
           [sampleSuccess "r1" ["a"; "b"; "c"]; sampleSuccess "r2" ["b"; "c"; "d"]]).
  - intros r Hr _.
    apply list_elem_of_In in Hr. simpl in Hr.
    destruct Hr as [<-|[<-|[]]]; apply (bool_decide_unpack _); vm_compute; exact I.
  - vm_compute. left.
Defined.

(** The hypothesis on duplicates matters: an identifier repeated on the
    first side is counted once per occurrence, which drives [relay2Only]
    below 0 and the percentage above 100. *)
Example compareRelays_with_duplicates :
  let o := compareRelays (sampleSuccess "r1" ["a"; "a"]) (sampleSuccess "r2" ["a"]) in
  common o = 2 ∧ relay2Only o = -1 ∧ (overlapPercentage o == 200)%Q.
Proof. vm_compute. repeat split. Qed.

(** ** Relay probe *)

Section ProbeFacts.

Variable calculateEventSize : NostrEvent → Z.

Local Abbreviation probe := (testRelayPerformance calculateEventSize).
Local Abbreviation probeTry := (testRelayPerformanceTry calculateEventSize).
Local Abbreviation iteration := (probeIteration calculateEventSize).

(** Loop invariant: the counter and the list of identifiers grow
    together. *)
Lemma probeLoop_count now events st :
  loopEventCount st = len (loopEventIds st) →
  loopEventCount (foldl (iteration now) st events)
  = len (loopEventIds (foldl (iteration now) st events)).
Proof.
  revert st. induction events as [|event events IH]; intros st Hst; simpl.
  - exact Hst.
  - apply IH. simpl. unfold len in *. rewrite length_app. simpl. lia.
Qed.

Lemma probeLoop_ids now events st :
  loopEventIds (foldl (iteration now) st events)
  = loopEventIds st ++ map id events.
Proof.
  revert st. induction events as [|event events IH]; intros st; simpl.
  - by rewrite app_nil_r.
  - rewrite IH. simpl. by rewrite <- app_assoc.
Qed.

(** The first iteration reads the clock, the later ones keep its value. *)
Lemma probeLoop_first now events st :
  firstEventTime (foldl (iteration now) st events)
  = match firstEventTime st, events with
    | Some t, _ => Some t
    | None, [] => None
    | None, _ :: _ => Some now
    end.
Proof.
  revert st. induction events as [|event events IH]; intros st; simpl.
  - by destruct (firstEventTime st).
  - rewrite IH. simpl. destruct (firstEventTime st); by destruct events.
Qed.

(** The [try] block throws exactly when the import or the query does. *)
Lemma probeTry_throw env relay followers err :
  probeTry env relay followers = Throw err ↔
  importOutcome env = Throw err ∨
  (importOutcome env = Ret tt ∧ queryOutcome env = Throw err).
Proof.
  unfold testRelayPerformanceTry, mbind, Exc_bind, mret, Exc_ret.
  destruct (importOutcome env) as [[]|e1]; destruct (queryOutcome env) as [evs|e2];
    split; naive_solver.
Qed.

Lemma probeTry_success env relay followers result :
  probeTry env relay followers = Ret result →
  success result = true ∧ error result = None ∧
  ∃ events, queryOutcome env = Ret events ∧
            eventIds result = map id events ∧
            eventCount result = len events.
Proof.
  unfold testRelayPerformanceTry, mbind, Exc_bind, mret, Exc_ret.
  destruct (importOutcome env) as [[]|e1]; [|discriminate].
  destruct (queryOutcome env) as [events|e2]; [|discriminate].
  intros [= <-]; simpl. repeat split.
  exists events. repeat split.
  - by rewrite probeLoop_ids.
  - rewrite probeLoop_count by done. rewrite probeLoop_ids. simpl.
    unfold len. by rewrite length_map.
Qed.

(** C9.  Every result of the probe, successful or not, has [eventCount]
    equal to the length of [eventIds]. *)
Theorem testRelayPerformance_count_matches_ids (env : ProbeEnv)
    (userPubkey relay : string) (followers : list string) :
  eventCount (probe env userPubkey relay followers)
  = len (eventIds (probe env userPubkey relay followers)).
Proof.
  unfold testRelayPerformance.
  destruct (probeTry env relay followers) as [result|err] eqn:Htry.
  - apply probeTry_success in Htry as (_ & _ & events & _ & -> & ->).
    unfold len. by rewrite length_map.
  - reflexivity.
Qed.

(** C5.  The probe is a total function into results, so nothing is raised
    past it; when the import or the query fails with [err], the result
    has [success = false], zero latency, bandwidth, duration, count and
    bytes, no identifiers, the message of [err] (or ["Unknown error"]
    when [err] is not an [Error]) and the number of followers supplied. *)
Theorem testRelayPerformance_failure (env : ProbeEnv)
    (userPubkey relay : string) (followers : list string) (err : Thrown) :
  importOutcome env = Throw err ∨
  (importOutcome env = Ret tt ∧ queryOutcome env = Throw err) →
  let result := probe env userPubkey relay followers in
  result = probeFailure relay followers err ∧
  success result = false ∧
  latency result = 0 ∧ bandwidth result = 0%Q ∧ duration result = 0 ∧
  eventCount result = 0 ∧ totalBytes result = 0 ∧
  eventIds result = [] ∧
  error result = Some (errorMessage err "Unknown error") ∧
  followerCount result = len followers.
Proof.
  intros Hfail. apply probeTry_throw with (relay := relay) (followers := followers) in Hfail.
  unfold testRelayPerformance. rewrite Hfail. simpl. by repeat split.
Qed.

(** With no event, the latency is the duration. *)
Lemma testRelayPerformance_latency_no_event env userPubkey relay followers :
  importOutcome env = Ret tt → queryOutcome env = Ret [] →
  latency (probe env userPubkey relay followers)
  = duration (probe env userPubkey relay followers).
Proof.
  intros Himp Hq.
  unfold testRelayPerformance, testRelayPerformanceTry, mbind, Exc_bind.
  by rewrite Himp, Hq.
Qed.

(** With at least one event, the latency is measured up to a clock
    reading taken after the one that ends the duration. *)
Lemma testRelayPerformance_latency_some_event env userPubkey relay followers
    event events :
  importOutcome env = Ret tt → queryOutcome env = Ret (event :: events) →
  firstIterationTime env ≠ 0 →
  latency (probe env userPubkey relay followers)
  = duration (probe env userPubkey relay followers)
    + (firstIterationTime env - endTime env).
Proof.
  intros Himp Hq Hnz.
  unfold testRelayPerformance, testRelayPerformanceTry, mbind, Exc_bind.
  rewrite Himp, Hq. simpl. rewrite probeLoop_first. simpl.
  apply Z.eqb_neq in Hnz. rewrite Hnz. lia.
Qed.

End ProbeFacts.

Lemma testRelayPerformance_failure_witness :
  let result := testRelayPerformance sampleEventSize sampleFailingEnv "me" "wss://r2" ["alice"] in
  result = probeFailure "wss://r2" ["alice"] (ThrownError "timeout") ∧
  success result = false ∧
  latency result = 0 ∧ bandwidth result = 0%Q ∧ duration result = 0 ∧
  eventCount result = 0 ∧ totalBytes result = 0 ∧
  eventIds result = [] ∧
  error result = Some "timeout" ∧
  followerCount result = 1.
Proof.
  apply (testRelayPerformance_failure sampleEventSize sampleFailingEnv
           "me" "wss://r2" ["alice"] (ThrownError "timeout")).
  right. split; reflexivity.
Defined.

(** C3, on the code: the clock is read for [endTime] before the loop and
    for [firstEventTime] inside it.  With readings 1000, 1010 and 1011 and
    one event, the probe succeeds with [latency = 11] and [duration = 10]:
    the latency exceeds the duration. *)
Theorem testRelayPerformance_latency_exceeds_duration :
  let result := testRelayPerformance sampleEventSize sampleProbeEnv "me" "wss://r1" ["alice"] in
  success result = true ∧ eventCount result = 1 ∧
  latency result = 11 ∧ duration result = 10 ∧
  ¬ (latency result ≤ duration result).
Proof. vm_compute. repeat split. intros H. apply H. reflexivity. Qed.

(** ** Follower resolver *)

Lemma isFollowTag_spec (tag : list string) :
  isFollowTag tag = true →
  tag !! 0%nat = Some "p" ∧
  ∃ value, tag !! 1%nat = Some value ∧ value ≠ "" ∧ tagValue tag = value.
Proof.
  unfold isFollowTag, tagValue.
  destruct (tag !! 0%nat) as [discriminator|]; [|discriminate].
  destruct (tag !! 1%nat) as [value|]; simpl.
  - intros H. apply andb_true_iff in H as [Hp Hv].
    apply bool_decide_eq_true in Hp as ->.
    apply negb_true_iff, bool_decide_eq_false in Hv.
    split; [done|]. by exists value.
  - rewrite andb_false_r. discriminate.
Qed.

Lemma elem_of_extractFollowers (identity : string) (followEvent : NostrEvent) :
  identity ∈ extractFollowers followEvent →
  identity ≠ "" ∧
  ∃ tag, tag ∈ tags followEvent ∧
         tag !! 0%nat = Some "p" ∧ tag !! 1%nat = Some identity.
Proof.
  unfold extractFollowers. intros Hin.
  apply (subseteq_take 50) in Hin.
  apply list_elem_of_fmap in Hin as (tag & -> & Htag).
  apply list_elem_of_filter in Htag as [Hfollow Htag].
  destruct (isFollowTag_spec _ Hfollow) as (Hp & value & Hv & Hne & ->).
  split; [done|]. by exists tag.
Qed.

Lemma extractFollowers_length (followEvent : NostrEvent) :
  (length (extractFollowers followEvent) ≤ 50)%nat.
Proof. unfold extractFollowers. rewrite length_take. lia. Qed.

(** [getFollowers] returns a list only on the path that reads the first
    follow-list event, and the list is then not empty. *)
Lemma getFollowers_success (query : Exc (list NostrEvent)) (userPubkey : string)
    (followers : list string) :
  outcome (getFollowers query userPubkey) = Ret followers →
  ∃ followEvent rest,
    query = Ret (followEvent :: rest) ∧
    followers = extractFollowers followEvent ∧ followers ≠ [].
Proof.
  unfold getFollowers, getFollowersTry. run_unfold.
  destruct query as [[|followEvent rest]|err]; cbn [performed outcome];
    try discriminate.
  case_bool_decide as Hlen; cbn [performed outcome]; [discriminate|].
  intros [= <-]. exists followEvent, rest. repeat split.
  intros Hnil. apply Hlen. by rewrite Hnil.
Qed.

(** C10.  Every identity that [getFollowers] returns is a non-empty string
    read from the second element of a tag of the follow-list event whose
    first element is ["p"]; a ["p"] tag without a second element, or with
    an empty one, contributes nothing. *)
Theorem getFollowers_identities (query : Exc (list NostrEvent))
    (userPubkey : string) (followers : list string) (identity : string) :
  outcome (getFollowers query userPubkey) = Ret followers →
  identity ∈ followers →
  identity ≠ "" ∧
  ∃ followEvent rest tag,
    query = Ret (followEvent :: rest) ∧ tag ∈ tags followEvent ∧
    tag !! 0%nat = Some "p" ∧ tag !! 1%nat = Some identity.
Proof.
  intros Hret Hin.
  apply getFollowers_success in Hret as (followEvent & rest & -> & -> & _).
  apply elem_of_extractFollowers in Hin as (Hne & tag & Htag & Hp & Hv).
  split; [done|]. by exists followEvent, rest, tag.
Qed.

Lemma getFollowers_identities_witness :
  outcome (getFollowers (Ret [sampleFollowList]) "me") = Ret ["alice"] ∧
  "alice" ≠ "" ∧
  ∃ followEvent rest tag,
    Ret [sampleFollowList] = Ret (followEvent :: rest) ∧ tag ∈ tags followEvent ∧
    tag !! 0%nat = Some "p" ∧ tag !! 1%nat = Some "alice".
Proof.
  assert (outcome (getFollowers (Ret [sampleFollowList]) "me") = Ret ["alice"])
    as Hret by (vm_compute; reflexivity).
  split; [exact Hret|].
  apply (getFollowers_identities (Ret [sampleFollowList]) "me" ["alice"] "alice" Hret).
  left.
Defined.

(** ** Probe orchestrator *)

Section RunLog.

Variable P : Action → Prop.

Lemma performed_bind {A B} (m : Run A) (k : A → Run B) :
  Forall P (performed m) →
  (∀ a, outcome m = Ret a → Forall P (performed (k a))) →
  Forall P (performed (m ≫= k)).
Proof.
  intros Hm Hk. unfold mbind, Run_bind.
  destruct (outcome m) as [a|err] eqn:Hout; cbn [performed].
  - apply Forall_app. split; [exact Hm|]. by apply Hk.
  - exact Hm.
Qed.

Lemma performed_tryCatch {A} (m : Run A) (handler : Thrown → Run A) :
  Forall P (performed m) →
  (∀ err, Forall P (performed (handler err))) →
  Forall P (performed (tryCatch m handler)).
Proof.
  intros Hm Hh. unfold tryCatch.
  destruct (outcome m) as [a|err]; cbn [performed]; [exact Hm|].
  apply Forall_app. by split.
Qed.

Lemma performed_emit (a : Action) : P a → Forall P (performed (emit a)).
Proof. intros Ha. by apply Forall_singleton. Qed.

Lemma performed_mret {A} (a : A) : Forall P (performed (mret a : Run A)).
Proof. apply Forall_nil_2. Qed.

Lemma performed_throw {A} (err : Thrown) : Forall P (performed (throw err : Run A)).
Proof. apply Forall_nil_2. Qed.

End RunLog.

(** The log and the outcome of a sequence, one step at a time. *)
Lemma performed_emit_bind {B} (a : Action) (k : Run B) :
  performed (emit a;; k) = a :: performed k.
Proof. reflexivity. Qed.

Lemma outcome_emit_bind {B} (a : Action) (k : Run B) :
  outcome (emit a;; k) = outcome k.
Proof. reflexivity. Qed.

Lemma performed_bind_ret {A B} (m : Run A) (k : A → Run B) (a : A) :
  outcome m = Ret a → performed (m ≫= k) = performed m ++ performed (k a).
Proof. intros H. unfold mbind, Run_bind. by rewrite H. Qed.

Lemma outcome_bind_ret {A B} (m : Run A) (k : A → Run B) (a : A) :
  outcome m = Ret a → outcome (m ≫= k) = outcome (k a).
Proof. intros H. unfold mbind, Run_bind. by rewrite H. Qed.

Lemma tryCatch_ret {A} (m : Run A) (handler : Thrown → Run A) (a : A) :
  outcome m = Ret a → tryCatch m handler = m.
Proof. intros H. unfold tryCatch. by rewrite H. Qed.

(** Proves that every action of a run built from the combinators satisfies
    a predicate that holds of each action written in it. *)
Ltac log_solve :=
  repeat first
    [ apply performed_emit; reflexivity
    | apply performed_mret
    | apply performed_throw
    | apply performed_bind; [|intros ? _]
    | apply performed_tryCatch; [|intros ?]
    | assumption ].

Section OrchestratorFacts.

Variable calculateEventSize : NostrEvent → Z.
Variable world : World.
Variable userPubkey : string.

Local Abbreviation run := (startTest calculateEventSize world userPubkey).
Local Abbreviation stepsOfRun := (runSteps calculateEventSize world userPubkey).
Local Abbreviation finalOfRun := (runFinal calculateEventSize world userPubkey).

(** The [try]/[catch] part of [startTest]. *)
Local Abbreviation guarded relays :=
  (tryCatch (startTestTry calculateEventSize world userPubkey relays)
     (λ err, emit (SetError (Some (errorMessage err "Analysis failed")));;
             emit (SetProgress 0))).

(** Shape of the log of a run that starts: the five resets, the guarded
    block, and the [finally] clause. *)
Lemma startTest_performed relays :
  performed (run false relays)
  = [SetIsRunning true; SetResults None; SetOverlapResults None;
     SetProgress 0; SetError None]
    ++ performed (guarded relays) ++ [SetIsRunning false].
Proof. reflexivity. Qed.

(** The log of a successful follower resolution. *)
Lemma getFollowers_performed (query : Exc (list NostrEvent)) followers :
  outcome (getFollowers query userPubkey) = Ret followers →
  performed (getFollowers query userPubkey)
  = [SetCurrentPhase "Fetching your follow list..."; SetProgress 10;
     QueryFollowList userPubkey; SetProgress 25].
Proof.
  unfold getFollowers, getFollowersTry. run_unfold.
  destruct query as [[|followEvent rest]|err]; cbn [performed outcome];
    try discriminate.
  case_bool_decide; cbn [performed outcome]; [discriminate|].
  reflexivity.
Qed.

(** C7.  Called while [isRunning] is true, [startTest] returns at once:
    it performs no action at all (no setter call, no follow-list query, no
    probe), so the run has no step and every field of the state is left
    as it was. *)
Theorem startTest_while_running (st : RunState.t) (relays : list string) :
  RunState.isRunning st = true →
  run (RunState.isRunning st) relays = MkRun [] (Ret tt) ∧
  stepsOfRun st relays = [] ∧
  finalOfRun st relays = st.
Proof.
  intros Hrun. unfold runSteps, runFinal. rewrite Hrun. by repeat split.
Qed.


End OrchestratorFacts.

Lemma startTest_while_running_witness :
  let st := applyAction RunState.initial (SetIsRunning true) in
  RunState.isRunning st = true ∧
  startTest sampleEventSize sampleWorld "me" (RunState.isRunning st) ["wss://r1"]
  = MkRun [] (Ret tt) ∧
  runSteps sampleEventSize sampleWorld "me" st ["wss://r1"] = [] ∧
  runFinal sampleEventSize sampleWorld "me" st ["wss://r1"] = st.
Proof.
  split; [reflexivity|].
  apply (startTest_while_running sampleEventSize sampleWorld "me"
           (applyAction RunState.initial (SetIsRunning true)) ["wss://r1"]).
  reflexivity.
Defined.



(** The page starts no run with an empty list of relays: the start button
    is disabled, so a click performs nothing. *)
Lemma clickStart_empty_relays (calculateEventSize : NostrEvent → Z) (world : World)
    (user : option string) (isRunning : bool) (st : PageState) :
  testRelays st = [] →
  clickStart calculateEventSize world user isRunning st = mret tt.
Proof.
  intros Hnil. unfold clickStart, startDisabled. rewrite Hnil.
  by rewrite orb_true_r.
Qed.

(** Conversely, a click that starts a run passes a relay list that is not
    empty, from a state that is not running. *)
Lemma clickStart_starts (calculateEventSize : NostrEvent → Z) (world : World)
    (user : option string) (isRunning : bool) (st : PageState) :
  performed (clickStart calculateEventSize world user isRunning st) ≠ [] →
  isRunning = false ∧ testRelays st ≠ [] ∧
  ∃ userPubkey,
    user = Some userPubkey ∧
    clickStart calculateEventSize world user isRunning st
    = startTest calculateEventSize world userPubkey false (testRelays st).
Proof.
  unfold clickStart, startDisabled, handleStartTest.
  destruct isRunning; simpl; [done|].
  case_bool_decide as Hlen; simpl; [done|].
  destruct user as [userPubkey|]; simpl; [|done].
  intros _. repeat split.
  - intros Hnil. by rewrite Hnil in Hlen.
  - by exists userPubkey.
Qed.

(** * Further properties *)

(** ** Overlap analyzer: which pairs, how many, and what they count *)

Section OverlapPairs.

Implicit Types (r : RelayPerformanceResult) (o : RelayOverlapResult).

Lemma comparePairs_length rs :
  2 * len (comparePairs rs) = len rs * (len rs - 1).
Proof.
  unfold len. induction rs as [|r rs IH]; simpl; [reflexivity|].
  rewrite length_app, length_map. nia.
Qed.

Lemma elem_of_comparePairs_sublist o rs :
  o ∈ comparePairs rs ↔
  ∃ r1 r2, [r1; r2] `sublist_of` rs ∧ o = compareRelays r1 r2.
Proof.
  induction rs as [|r rs IH]; simpl.
  - split.
    + intros H. inversion H.
    + intros (r1 & r2 & Hsub & _). apply sublist_nil_r in Hsub. discriminate.
  - rewrite elem_of_app, list_elem_of_fmap, IH. split.
    + intros [(r2 & -> & Hr2)|(r1 & r2 & Hsub & ->)].
      * exists r, r2. split; [|done].
        apply sublist_skip. by apply singleton_sublist_l.
      * exists r1, r2. split; [|done]. by apply sublist_cons.
    + intros (r1 & r2 & Hsub & ->).
      apply sublist_cons_r in Hsub as [Hsub|(l' & [= -> <-] & Hsub)].
      * right. by exists r1, r2.
      * left. exists r2. split; [done|]. by apply singleton_sublist_l.
Qed.

Lemma filter_sublist_mono (P : RelayPerformanceResult → Prop)
    `{!∀ r, Decision (P r)} (l k : list RelayPerformanceResult) :
  l `sublist_of` k → filter P l `sublist_of` filter P k.
Proof.
  induction 1 as [|x l k _ IH|x l k _ IH].
  - reflexivity.
  - rewrite !filter_cons. case_decide; [by apply sublist_skip|exact IH].
  - rewrite filter_cons. case_decide; [by apply sublist_cons|exact IH].
Qed.

Lemma calculateOverlap_pair_count_aux (results : list RelayPerformanceResult) :
  2 * len (calculateOverlap results)
  = len (filter (λ r, success r = true) results)
    * (len (filter (λ r, success r = true) results) - 1).
Proof. unfold calculateOverlap. apply comparePairs_length. Qed.

End OverlapPairs.

(** X1.  [calculateOverlap] returns one record per unordered pair of
    successful results: with [k] successful entries in the input, twice the
    number of records is [k * (k - 1)]. *)
Theorem calculateOverlap_pair_count (results : list RelayPerformanceResult) :
  let k := len (filter (λ r, success r = true) results) in
  2 * len (calculateOverlap results) = k * (k - 1).
Proof. unfold calculateOverlap. apply comparePairs_length. Qed.

(** X2.  The records of [calculateOverlap] are exactly the comparisons of
    two successful results of which the first stands before the second in
    the input: no result is compared with itself or in both orders, and a
    failed result is part of no comparison. *)
Theorem calculateOverlap_pairs (results : list RelayPerformanceResult)
    (o : RelayOverlapResult) :
  o ∈ calculateOverlap results ↔
  ∃ r1 r2, [r1; r2] `sublist_of` results ∧
           success r1 = true ∧ success r2 = true ∧ o = compareRelays r1 r2.
Proof.
  unfold calculateOverlap. rewrite elem_of_comparePairs_sublist. split.
  - intros (r1 & r2 & Hsub & ->). exists r1, r2.
    assert (r1 ∈ filter (λ r, success r = true) results) as H1
      by (eapply elem_of_sublist; [|exact Hsub]; left).
    assert (r2 ∈ filter (λ r, success r = true) results) as H2
      by (eapply elem_of_sublist; [|exact Hsub]; right; left).
    apply list_elem_of_filter in H1 as [H1 _].
    apply list_elem_of_filter in H2 as [H2 _].
    repeat split; try assumption.
    etrans; [exact Hsub|]. apply sublist_filter.
  - intros (r1 & r2 & Hsub & H1 & H2 & ->). exists r1, r2. split; [|done].
    apply (filter_sublist_mono (λ r, success r = true)) in Hsub.
    rewrite filter_cons_True in Hsub by done.
    rewrite filter_cons_True in Hsub by done.
    exact Hsub.
Qed.

(** X3.  No record is returned exactly when fewer than two results are
    successful. *)
Theorem calculateOverlap_empty_iff (results : list RelayPerformanceResult) :
  calculateOverlap results = [] ↔
  len (filter (λ r, success r = true) results) ≤ 1.
Proof.
  pose proof (calculateOverlap_pair_count_aux results) as Hcount.
  split.
  - intros Hnil. rewrite Hnil in Hcount. unfold len in *. simpl in Hcount. nia.
  - intros Hk. destruct (calculateOverlap results) as [|o os] eqn:Ho; [done|].
    unfold len in *. simpl in Hcount. nia.
Qed.

Section OverlapSets.

Implicit Types (ids : list string).

Lemma common_is_intersection ids1 ids2 :
  NoDup ids1 →
  length (filter (λ i, i ∈ (list_to_set ids2 : gset string)) ids1)
  = size ((list_to_set ids1 : gset string) ∩ list_to_set ids2).
Proof.
  intros Hnd.
  rewrite <- (size_list_to_set (C := gset string)) by by apply NoDup_filter.
  f_equal. apply set_eq. intros x.
  rewrite elem_of_list_to_set, list_elem_of_filter, elem_of_intersection.
  rewrite !elem_of_list_to_set. tauto.
Qed.

Lemma size_union_intersection (X Y : gset string) :
  (size (X ∪ Y) + size (X ∩ Y) = size X + size Y)%nat.
Proof.
  rewrite size_union_alt, size_difference_alt.
  assert (size (Y ∩ X) ≤ size Y)%nat by (apply subseteq_size; set_solver).
  replace (X ∩ Y) with (Y ∩ X) by set_solver. lia.
Qed.

End OverlapSets.

(** X4.  For two results with duplicate-free identifier lists, [common] is
    the number of identifiers that both relays returned, and
    [relay1Only + relay2Only + common] the number that either returned:
    the sizes of the intersection and of the union of the two sets. *)
Theorem compareRelays_counts_sets (r1 r2 : RelayPerformanceResult) :
  NoDup (eventIds r1) → NoDup (eventIds r2) →
  let set1 : gset string := list_to_set (eventIds r1) in
  let set2 : gset string := list_to_set (eventIds r2) in
  let o := compareRelays r1 r2 in
  common o = Z.of_nat (size (set1 ∩ set2)) ∧
  relay1Only o + relay2Only o + common o = Z.of_nat (size (set1 ∪ set2)).
Proof.
  intros Hnd1 Hnd2. unfold compareRelays; simpl. unfold len.
  rewrite (common_is_intersection _ _ Hnd1).
  pose proof (size_union_intersection (list_to_set (eventIds r1))
                (list_to_set (eventIds r2))) as Hsize.
  rewrite !(size_list_to_set (C := gset string)) in Hsize by done.
  split; [reflexivity|]. lia.
Qed.

Lemma compareRelays_counts_sets_witness :
  let o := compareRelays (sampleSuccess "r1" ["a"; "b"; "c"])
                         (sampleSuccess "r2" ["b"; "c"; "d"]) in
  common o = 2 ∧ relay1Only o + relay2Only o + common o = 4.
Proof.
  apply (compareRelays_counts_sets (sampleSuccess "r1" ["a"; "b"; "c"])
                                   (sampleSuccess "r2" ["b"; "c"; "d"]));
    apply (bool_decide_unpack _); vm_compute; exact I.
Defined.

(** X5.  Comparing two results with duplicate-free identifier lists in the
    other order exchanges [relay1Only] and [relay2Only] and the two totals,
    and leaves [common] and the percentage as they are. *)
Theorem compareRelays_swap (r1 r2 : RelayPerformanceResult) :
  NoDup (eventIds r1) → NoDup (eventIds r2) →
  common (compareRelays r2 r1) = common (compareRelays r1 r2) ∧
  relay1Only (compareRelays r2 r1) = relay2Only (compareRelays r1 r2) ∧
  relay2Only (compareRelays r2 r1) = relay1Only (compareRelays r1 r2) ∧
  relay1Total (compareRelays r2 r1) = relay2Total (compareRelays r1 r2) ∧
  relay2Total (compareRelays r2 r1) = relay1Total (compareRelays r1 r2) ∧
  overlapPercentage (compareRelays r2 r1) = overlapPercentage (compareRelays r1 r2).
Proof.
  intros Hnd1 Hnd2.
  assert (len (filter (λ i, i ∈ (list_to_set (eventIds r1) : gset string)) (eventIds r2))
          = len (filter (λ i, i ∈ (list_to_set (eventIds r2) : gset string)) (eventIds r1)))
    as Hcommon.
  { unfold len. rewrite !common_is_intersection by done.
    do 2 f_equal. set_solver. }
  unfold compareRelays; simpl. rewrite Hcommon.
  set (c := len (filter _ (eventIds r1))).
  replace (len (eventIds r2) - c + (len (eventIds r1) - c) + c)
    with (len (eventIds r1) - c + (len (eventIds r2) - c) + c) by lia.
  by repeat split.
Qed.

Lemma compareRelays_swap_witness :
  let r1 := sampleSuccess "r1" ["a"; "b"; "c"] in
  let r2 := sampleSuccess "r2" ["c"; "d"] in
  common (compareRelays r2 r1) = common (compareRelays r1 r2) ∧
  relay1Only (compareRelays r2 r1) = relay2Only (compareRelays r1 r2) ∧
  relay2Only (compareRelays r2 r1) = relay1Only (compareRelays r1 r2) ∧
  relay1Total (compareRelays r2 r1) = relay2Total (compareRelays r1 r2) ∧
  relay2Total (compareRelays r2 r1) = relay1Total (compareRelays r1 r2) ∧
  overlapPercentage (compareRelays r2 r1) = overlapPercentage (compareRelays r1 r2).
Proof.
  apply (compareRelays_swap (sampleSuccess "r1" ["a"; "b"; "c"])
                            (sampleSuccess "r2" ["c"; "d"]));
    apply (bool_decide_unpack _); vm_compute; exact I.
Defined.

(** X6.  For two results with duplicate-free identifier lists, the overlap
    is 100 percent exactly when both relays returned the same, non-empty
    set of identifiers. *)
Theorem compareRelays_full_overlap (r1 r2 : RelayPerformanceResult) :
  NoDup (eventIds r1) → NoDup (eventIds r2) →
  (overlapPercentage (compareRelays r1 r2) == 100)%Q ↔
  (list_to_set (eventIds r1) : gset string) = list_to_set (eventIds r2) ∧
  eventIds r1 ≠ [].
Proof.
  intros Hnd1 Hnd2.
  pose proof (common_is_intersection _ (eventIds r2) Hnd1) as Hc.
  pose proof (size_union_intersection (list_to_set (eventIds r1))
                (list_to_set (eventIds r2))) as Hsize.
  pose proof (size_list_to_set (C := gset string) _ Hnd1) as H1.
  pose proof (size_list_to_set (C := gset string) _ Hnd2) as H2.
  unfold compareRelays; simpl. unfold len. rewrite Hc.
  set (X := list_to_set (eventIds r1) : gset string) in *.
  set (Y := list_to_set (eventIds r2) : gset string) in *.
  replace (Z.of_nat (length (eventIds r1)) - Z.of_nat (size (X ∩ Y))
           + (Z.of_nat (length (eventIds r2)) - Z.of_nat (size (X ∩ Y)))
           + Z.of_nat (size (X ∩ Y)))
    with (Z.of_nat (size (X ∪ Y))) by lia.
  assert (size (X ∩ Y) ≤ size (X ∪ Y))%nat as Hle
    by (apply subseteq_size; set_solver).
  split.
  - intros Hpct.
    assert (0 < size (X ∪ Y) ∧ size (X ∩ Y) = size (X ∪ Y))%nat as [Hpos Heq].
    { destruct (0 <? Z.of_nat (size (X ∪ Y))) eqn:Ht.
      - apply Z.ltb_lt in Ht.
        destruct (Z.of_nat (size (X ∪ Y))) as [|t|t] eqn:Hu; try lia.
        revert Hpct. unfold Qeq, Qdiv, Qmult, Qinv, inject_Z; simpl. lia.
      - revert Hpct. unfold Qeq; simpl. lia. }
    assert (X ∪ Y = X ∩ Y) as Hsets.
    { symmetry. apply set_subseteq_size_eq; [set_solver|lia]. }
    split; [set_solver|].
    intros Hnil. rewrite Hnil in H1. simpl in H1.
    assert (size X ≤ size (X ∪ Y))%nat by (apply subseteq_size; set_solver).
    assert (size (X ∪ Y) ≤ size X)%nat
      by (rewrite Hsets; apply subseteq_size; set_solver).
    lia.
  - intros [Hsets Hne].
    assert (X ∪ Y = X) as -> by set_solver.
    assert (X ∩ Y = X) as -> by set_solver.
    rewrite H1.
    destruct (eventIds r1) as [|i ids]; [done|]. simpl length.
    destruct (0 <? Z.of_nat (S (length ids))) eqn:Ht;
      [|apply Z.ltb_ge in Ht; lia].
    destruct (Z.of_nat (S (length ids))) as [|t|t] eqn:Hu; try lia.
    unfold Qeq, Qdiv, Qmult, Qinv, inject_Z; simpl. lia.
Qed.

Lemma compareRelays_full_overlap_witness :
  (overlapPercentage (compareRelays (sampleSuccess "r1" ["a"; "b"])
                                    (sampleSuccess "r2" ["b"; "a"])) == 100)%Q ↔
  (list_to_set ["a"; "b"] : gset string) = list_to_set ["b"; "a"] ∧
  ["a"; "b"] ≠ @nil string.
Proof.
  apply (compareRelays_full_overlap (sampleSuccess "r1" ["a"; "b"])
                                    (sampleSuccess "r2" ["b"; "a"]));
    apply (bool_decide_unpack _); vm_compute; exact I.
Defined.

(** ** Relay probe: what a result records *)

Section ProbeResults.

Variable calculateEventSize : NostrEvent → Z.

Local Abbreviation probe := (testRelayPerformance calculateEventSize).
Local Abbreviation iteration := (probeIteration calculateEventSize).

(** The total size of a list of events. *)
Local Abbreviation sizeOf events :=
  (foldr Z.add 0 (map calculateEventSize events)).

Lemma probeLoop_bytes now events st :
  loopTotalBytes (foldl (iteration now) st events)
  = loopTotalBytes st + sizeOf events.
Proof.
  revert st. induction events as [|event events IH]; intros st; simpl.
  - lia.
  - rewrite IH. simpl. lia.
Qed.

Lemma sizeOf_nonneg events :
  (∀ event, 0 ≤ calculateEventSize event) → 0 ≤ sizeOf events.
Proof.
  intros Hsize. induction events as [|event events IH]; simpl; [lia|].
  specialize (Hsize event). lia.
Qed.

(** X7.  When the import and the query both resolve, the result is a
    success that lists the identifiers of the returned events in order and
    counts them, adds up their sizes, measures the duration between the two
    clock readings around the query, and records the relay and the number
    of followers; [error] is absent. *)
Theorem testRelayPerformance_success (env : ProbeEnv)
    (userPubkey relayUrl : string) (followers : list string)
    (events : list NostrEvent) :
  importOutcome env = Ret tt → queryOutcome env = Ret events →
  let result := probe env userPubkey relayUrl followers in
  success result = true ∧ error result = None ∧
  relay result = relayUrl ∧ followerCount result = len followers ∧
  eventIds result = map id events ∧ eventCount result = len events ∧
  totalBytes result = sizeOf events ∧
  duration result = endTime env - startTime env.
Proof.
  intros Himp Hq.
  unfold testRelayPerformance, testRelayPerformanceTry, mbind, Exc_bind, mret, Exc_ret.
  rewrite Himp, Hq. simpl.
  rewrite probeLoop_ids, probeLoop_bytes, probeLoop_count by done.
  rewrite probeLoop_ids. simpl. unfold len. rewrite length_map.
  repeat split; lia.
Qed.

(** X8.  Whatever the network does, the result names the relay that was
    probed and the number of followers supplied, and it carries an error
    message exactly when it is not a success; it is a success exactly when
    the import and the query both resolve. *)
Theorem testRelayPerformance_outcome (env : ProbeEnv)
    (userPubkey relayUrl : string) (followers : list string) :
  let result := probe env userPubkey relayUrl followers in
  relay result = relayUrl ∧ followerCount result = len followers ∧
  (is_Some (error result) ↔ success result = false) ∧
  (success result = true ↔
   importOutcome env = Ret tt ∧ ∃ events, queryOutcome env = Ret events).
Proof.
  unfold testRelayPerformance, testRelayPerformanceTry, mbind, Exc_bind, mret, Exc_ret.
  destruct (importOutcome env) as [[]|e1];
    [destruct (queryOutcome env) as [events|e2]|]; simpl.
  - repeat split; try done. by exists events.
  - repeat split; try done. intros [_ [events [=]]].
  - repeat split; try done. intros [[=] _].
Qed.

(** X9.  If no event size is negative, the bandwidth of a result is never
    negative; it is 0 when the clock did not advance during the query. *)
Theorem testRelayPerformance_bandwidth (env : ProbeEnv)
    (userPubkey relayUrl : string) (followers : list string) :
  (∀ event, 0 ≤ calculateEventSize event) →
  let result := probe env userPubkey relayUrl followers in
  (0 <= bandwidth result)%Q ∧
  (endTime env ≤ startTime env → (bandwidth result == 0)%Q).
Proof.
  intros Hsize.
  unfold testRelayPerformance, testRelayPerformanceTry, mbind, Exc_bind, mret, Exc_ret.
  destruct (importOutcome env) as [[]|e1];
    [destruct (queryOutcome env) as [events|e2]|]; simpl;
    try (split; [apply Qle_refl|reflexivity]).
  rewrite probeLoop_bytes. simpl.
  pose proof (sizeOf_nonneg events Hsize) as Hbytes.
  destruct (0 <? endTime env - startTime env) eqn:Hd.
  - apply Z.ltb_lt in Hd. split; [|lia].
    destruct (endTime env - startTime env) as [|d|d]; try lia.
    unfold Qle, Qdiv, Qmult, Qinv, inject_Z; simpl. lia.
  - split; [apply Qle_refl|reflexivity].
Qed.

(** X10.  A query that resolves with no event gives a successful result
    with no identifier, zero count, bytes and bandwidth, and a latency
    equal to the duration. *)
Theorem testRelayPerformance_no_event (env : ProbeEnv)
    (userPubkey relayUrl : string) (followers : list string) :
  importOutcome env = Ret tt → queryOutcome env = Ret [] →
  let result := probe env userPubkey relayUrl followers in
  success result = true ∧ eventIds result = [] ∧ eventCount result = 0 ∧
  totalBytes result = 0 ∧ (bandwidth result == 0)%Q ∧
  latency result = duration result.
Proof.
  intros Himp Hq.
  unfold testRelayPerformance, testRelayPerformanceTry, mbind, Exc_bind, mret, Exc_ret.
  rewrite Himp, Hq. simpl. repeat split.
  destruct (0 <? endTime env - startTime env); [|reflexivity].
  destruct (endTime env - startTime env); reflexivity.
Qed.

End ProbeResults.

Lemma testRelayPerformance_success_witness :
  let result := testRelayPerformance sampleEventSize sampleProbeEnv "me" "wss://r1" ["alice"] in
  success result = true ∧ error result = None ∧
  relay result = "wss://r1" ∧ followerCount result = 1 ∧
  eventIds result = ["a"] ∧ eventCount result = 1 ∧
  totalBytes result = 5 ∧ duration result = 10.
Proof.
  apply (testRelayPerformance_success sampleEventSize sampleProbeEnv
           "me" "wss://r1" ["alice"] [sampleEvent "a" []]); reflexivity.
Defined.

Lemma testRelayPerformance_bandwidth_witness :
  let result := testRelayPerformance sampleEventSize sampleProbeEnv "me" "wss://r1" ["alice"] in
  (0 <= bandwidth result)%Q ∧
  (endTime sampleProbeEnv ≤ startTime sampleProbeEnv → (bandwidth result == 0)%Q).
Proof.
  apply (testRelayPerformance_bandwidth sampleEventSize sampleProbeEnv
           "me" "wss://r1" ["alice"]).
  intros event. unfold sampleEventSize. lia.
Defined.

(** A probe whose query returns nothing. *)
Lemma testRelayPerformance_no_event_witness :
  let env := {| importOutcome := Ret tt; startTime := 1000;
                queryOutcome := Ret []; endTime := 1010;
                firstIterationTime := 1011 |} in
  let result := testRelayPerformance sampleEventSize env "me" "wss://r1" ["alice"] in
  success result = true ∧ eventIds result = [] ∧ eventCount result = 0 ∧
  totalBytes result = 0 ∧ (bandwidth result == 0)%Q ∧
  latency result = duration result.
Proof.
  apply (testRelayPerformance_no_event sampleEventSize
           {| importOutcome := Ret tt; startTime := 1000;
              queryOutcome := Ret []; endTime := 1010;
              firstIterationTime := 1011 |} "me" "wss://r1" ["alice"]);
    reflexivity.
Defined.

(** ** Follower resolver: bounds and failures *)

(** X11.  A list returned by [getFollowers] has at least one and at most
    fifty identities. *)
Theorem getFollowers_bounds (query : Exc (list NostrEvent))
    (userPubkey : string) (followers : list string) :
  outcome (getFollowers query userPubkey) = Ret followers →
  (1 ≤ length followers ≤ 50)%nat.
Proof.
  intros Hret.
  apply getFollowers_success in Hret as (followEvent & rest & _ & -> & Hne).
  pose proof (extractFollowers_length followEvent).
  destruct (extractFollowers followEvent); [done|]. simpl in *. lia.
Qed.

Lemma getFollowers_bounds_witness :
  outcome (getFollowers (Ret [sampleFollowList]) "me") = Ret ["alice"] ∧
  (1 ≤ length ["alice"] ≤ 50)%nat.
Proof.
  assert (outcome (getFollowers (Ret [sampleFollowList]) "me") = Ret ["alice"])
    as Hret by (vm_compute; reflexivity).
  split; [exact Hret|].
  exact (getFollowers_bounds (Ret [sampleFollowList]) "me" ["alice"] Hret).
Defined.

(** X12.  What [getFollowers] settles to, case by case: a rejected query is
    rethrown as an [Error] with the same message (or ["Failed to fetch
    follow list"] when the rejection is not an [Error]); no event and no
    usable tag each give an [Error] with a message of their own; otherwise
    the identities of the first event are returned, later events being
    ignored. *)
Theorem getFollowers_outcome (query : Exc (list NostrEvent)) (userPubkey : string) :
  outcome (getFollowers query userPubkey)
  = match query with
    | Throw err =>
        Throw (ThrownError (errorMessage err "Failed to fetch follow list"))
    | Ret [] =>
        Throw (ThrownError "No follow list found. Please follow some users first.")
    | Ret (followEvent :: _) =>
        match extractFollowers followEvent with
        | [] => Throw (ThrownError "Your follow list is empty. Please follow some users first.")
        | followers => Ret followers
        end
    end.
Proof.
  unfold getFollowers, getFollowersTry. run_unfold.
  destruct query as [[|followEvent rest]|err]; cbn [performed outcome];
    try reflexivity.
  case_bool_decide as Hlen; cbn [performed outcome].
  - by destruct (extractFollowers followEvent).
  - destruct (extractFollowers followEvent); [done|reflexivity].
Qed.

(** ** Probe orchestrator: the shape of a whole run *)

Lemma applyActions_displayOnly (st : RunState.t) (log : list Action) :
  Forall (λ a, displayOnly a = true) log →
  RunState.isRunning (applyActions st log) = RunState.isRunning st ∧
  RunState.results (applyActions st log) = RunState.results st ∧
  RunState.overlapResults (applyActions st log) = RunState.overlapResults st ∧
  RunState.error (applyActions st log) = RunState.error st.
Proof.
  intros Hlog. revert st. unfold applyActions.
  induction Hlog as [|a log Ha _ IH]; intros st; simpl; [done|].
  destruct (IH (applyAction st a)) as (-> & -> & -> & ->).
  by destruct st, a.
Qed.

(** *** Commits *)

Lemma batches_no_await (batch log : list Action) :
  Forall (λ a, awaitsNetwork a = false) log →
  batches batch log = [batch ++ log].
Proof.
  intros Hlog. revert batch.
  induction Hlog as [|a log Ha _ IH]; intros batch; simpl.
  - by rewrite app_nil_r.
  - rewrite Ha, IH. by rewrite <- app_assoc.
Qed.

(** Calls made after the last await join the last batch. *)
Lemma batches_app (batch log1 log2 : list Action) :
  Forall (λ a, awaitsNetwork a = false) log2 →
  ∃ init last,
    batches batch log1 = init ++ [last] ∧
    batches batch (log1 ++ log2) = init ++ [last ++ log2].
Proof.
  intros Hlog2. revert batch.
  induction log1 as [|a log1 IH]; intros batch; simpl.
  - exists [], batch. split; [done|]. by apply batches_no_await.
  - destruct (awaitsNetwork a).
    + destruct (IH []) as (init & last & -> & ->).
      by exists (batch :: init), last.
    + apply IH.
Qed.

(** Every call of a batch is a call of the log. *)
Lemma batches_calls (batch log b : list Action) (a : Action) :
  b ∈ batches batch log → a ∈ b → a ∈ batch ∨ a ∈ log.
Proof.
  revert batch. induction log as [|a' log IH]; intros batch; simpl.
  - intros Hb%list_elem_of_singleton Ha. subst b. by left.
  - destruct (awaitsNetwork a').
    + intros [Hb|Hb]%elem_of_cons Ha; [subst b; by left|].
      destruct (IH [] Hb Ha) as [Hnil|Hlog]; [inversion Hnil|].
      right. by right.
    + intros Hb Ha. destruct (IH _ Hb Ha) as [Hbatch|Hlog].
      * apply elem_of_app in Hbatch as [Hbatch|Hbatch%list_elem_of_singleton];
          [by left|subst a; right; left].
      * right. by right.
Qed.

(** A step commits one of the batches. *)
Lemma elem_of_steps (st : RunState.t) (bs : list (list Action)) (s : Step) :
  s ∈ steps st bs →
  calls s ∈ bs ∧ after s = applyActions (before s) (calls s).
Proof.
  revert st. induction bs as [|batch bs IH]; intros st; simpl.
  - intros Hs. inversion Hs.
  - destruct batch as [|a batch].
    + intros Hs. destruct (IH _ Hs) as [Hin Hafter]. split; [by right|done].
    + intros [Hs|Hs]%elem_of_cons.
      * subst s. split; [left|reflexivity].
      * destruct (IH _ Hs) as [Hin Hafter]. split; [by right|done].
Qed.

(** Without a call of [setResults] with a list, [results] stays [null]. *)
Lemma applyActions_results_None (st : RunState.t) (log : list Action) :
  Forall (λ a, publishesCall a = false) log →
  RunState.results st = None →
  RunState.results (applyActions st log) = None.
Proof.
  intros Hlog. revert st. unfold applyActions.
  induction Hlog as [|a log Ha _ IH]; intros st Hst; simpl; [done|].
  apply IH. destruct st, a as [| [rs|] | | | | | |]; simpl in *; done.
Qed.

Lemma applyActions_last_isRunning (st : RunState.t) (log : list Action) (b : bool) :
  RunState.isRunning (applyActions st (log ++ [SetIsRunning b])) = b.
Proof.
  unfold applyActions. rewrite foldl_app. simpl. by destruct (foldl _ _ _).
Qed.

(** If a log makes no call of [setResults] with a list before its last
    await, and ends with [setIsRunning(false)], then the commit that
    publishes results also clears [isRunning]. *)
Lemma publishing_commit (st : RunState.t) (log early late : list Action) (s : Step) :
  log = early ++ late ++ [SetIsRunning false] →
  Forall (λ a, publishesCall a = false) early →
  Forall (λ a, awaitsNetwork a = false) late →
  s ∈ steps st (batches [] log) →
  publishesResults s = true →
  RunState.isRunning (after s) = false.
Proof.
  intros -> Hearly Hlate Hs Hpub.
  assert (Forall (λ a, awaitsNetwork a = false) (late ++ [SetIsRunning false]))
    as Hlate' by (apply Forall_app; split; [done|by repeat constructor]).
  destruct (batches_app [] early _ Hlate') as (init & last & Hinit & Hall).
  rewrite Hall in Hs. apply elem_of_steps in Hs as [Hcalls Hafter].
  apply elem_of_app in Hcalls as [Hcalls|Hcalls%list_elem_of_singleton].
  - exfalso. unfold publishesResults in Hpub.
    destruct (RunState.results (before s)) eqn:Hbefore; [discriminate|].
    rewrite Hafter, applyActions_results_None in Hpub; [discriminate| |done].
    apply Forall_forall. intros a Ha.
    assert (calls s ∈ batches [] early) as Hb
      by (rewrite Hinit; apply elem_of_app; by left).
    destruct (batches_calls _ _ _ _ Hb Ha) as [Hnil|Hin]; [inversion Hnil|].
    rewrite Forall_forall in Hearly. by apply Hearly.
  - rewrite Hafter, Hcalls, !app_assoc. apply applyActions_last_isRunning.
Qed.

Section OrchestratorRuns.

Variable calculateEventSize : NostrEvent → Z.
Variable world : World.
Variable userPubkey : string.

Local Abbreviation run := (startTest calculateEventSize world userPubkey).
Local Abbreviation finalOfRun := (runFinal calculateEventSize world userPubkey).
Local Abbreviation resultsOf := (probeResults calculateEventSize world userPubkey).

(** The results of probing [relays] in order, the first one at index [i]. *)
Local Abbreviation probesFrom followers i relays :=
  (imap (λ j relayUrl,
           testRelayPerformance calculateEventSize (probeEnv world (i + j))
             userPubkey relayUrl followers) relays).

(** The actions of probing [relays] in order, the first one at index [i]. *)
Local Abbreviation probeLogFrom followers total i relays :=
  (concat (imap (λ j relayUrl,
             [SetCurrentPhase ("Analyzing " +:+ replaceFirst "wss://" "" relayUrl +:+ "...");
              SetProgress (30 + inject_Z (Z.of_nat (i + j)) / inject_Z total * 60)%Q;
              ProbeRelay relayUrl followers]) relays)).

Lemma probeRelays_outcome followers total i remaining testResults :
  outcome (probeRelays calculateEventSize world userPubkey
             followers total i remaining testResults)
  = Ret (testResults ++ probesFrom followers i remaining).
Proof.
  revert i testResults.
  induction remaining as [|relayUrl rest IH]; intros i testResults.
  - simpl. by rewrite app_nil_r.
  - cbn [probeRelays]. rewrite !outcome_emit_bind. cbv zeta. rewrite IH.
    rewrite <- app_assoc. simpl. rewrite Nat.add_0_r. do 3 f_equal.
    apply imap_ext. intros j r _. simpl. by rewrite Nat.add_succ_r.
Qed.

Lemma probeRelays_performed followers total i remaining testResults :
  performed (probeRelays calculateEventSize world userPubkey
               followers total i remaining testResults)
  = probeLogFrom followers total i remaining.
Proof.
  revert i testResults.
  induction remaining as [|relayUrl rest IH]; intros i testResults.
  - reflexivity.
  - cbn [probeRelays]. rewrite !performed_emit_bind. cbv zeta. rewrite IH.
    simpl. rewrite Nat.add_0_r. do 4 f_equal.
    apply imap_ext. intros j r _. simpl. by rewrite Nat.add_succ_r.
Qed.

(** The log of the summary that ends the [try] block. *)
Local Abbreviation summaryLog rs :=
  (match failureSummary rs with
   | Some message => [SetError (Some message)]
   | None => []
   end).

(** The [try] block when the followers are resolved: it completes, and
    its log is the resolver's, the announcement, the probes, the
    publication and the summary. *)
Lemma startTestTry_resolved relays followers :
  outcome (getFollowers (followQuery world) userPubkey) = Ret followers →
  outcome (startTestTry calculateEventSize world userPubkey relays) = Ret tt ∧
  performed (startTestTry calculateEventSize world userPubkey relays)
  = performed (getFollowers (followQuery world) userPubkey)
    ++ [SetCurrentPhase ("Analyzing " +:+ pretty (len relays) +:+ " relays with "
                         +:+ pretty (len followers) +:+ " followers...");
        SetProgress 30]
    ++ probeLogFrom followers (len relays) 0%nat relays
    ++ [SetCurrentPhase "Calculating overlap..."; SetProgress 95;
        SetOverlapResults (Some (calculateOverlap (resultsOf followers relays)));
        SetCurrentPhase "Analysis completed!"; SetProgress 100;
        SetResults (Some (resultsOf followers relays))]
    ++ summaryLog (resultsOf followers relays).
Proof.
  intros Hret.
  assert (outcome (probeRelays calculateEventSize world userPubkey
                     followers (len relays) 0 relays [])
          = Ret (resultsOf followers relays)) as Hprobe
    by (rewrite probeRelays_outcome; reflexivity).
  unfold startTestTry. split.
  - rewrite (outcome_bind_ret _ _ _ Hret). cbv beta zeta.
    rewrite !outcome_emit_bind, (outcome_bind_ret _ _ _ Hprobe). cbv beta zeta.
    rewrite !outcome_emit_bind.
    case_bool_decide; [reflexivity|]. by destruct (0 <? _).
  - rewrite (performed_bind_ret _ _ _ Hret). cbv beta zeta.
    rewrite !performed_emit_bind, (performed_bind_ret _ _ _ Hprobe). cbv beta zeta.
    rewrite !performed_emit_bind, probeRelays_performed.
    unfold failureSummary. cbv zeta.
    case_bool_decide; [reflexivity|]. by destruct (0 <? _).
Qed.

Lemma outcome_bind_throw {A B} (m : Run A) (k : A → Run B) (err : Thrown) :
  outcome m = Throw err → m ≫= k = MkRun (performed m) (Throw err).
Proof. intros H. unfold mbind, Run_bind. by rewrite H. Qed.

Lemma getFollowers_displayOnly (query : Exc (list NostrEvent)) :
  Forall (λ a, displayOnly a = true) (performed (getFollowers query userPubkey)).
Proof.
  unfold getFollowers, getFollowersTry. log_solve.
  match goal with
  | |- context [match ?followEvents with [] => _ | _ :: _ => _ end] =>
      destruct followEvents as [|followEvent rest]
  end; [log_solve|].
  case_bool_decide; log_solve.
Qed.

Lemma probeLog_displayOnly followers total i relays :
  Forall (λ a, displayOnly a = true) (probeLogFrom followers total i relays).
Proof.
  rewrite <- (probeRelays_performed followers total i relays []).
  generalize (@nil RelayPerformanceResult). revert i.
  induction relays as [|relayUrl rest IH]; intros i testResults; simpl.
  - constructor.
  - repeat (constructor; [reflexivity|]). apply IH.
Qed.

Lemma applyActions_app (st : RunState.t) (log1 log2 : list Action) :
  applyActions st (log1 ++ log2) = applyActions (applyActions st log1) log2.
Proof. apply foldl_app. Qed.

(** The state that a run leaves when the followers are resolved. *)
Lemma finalOfRun_resolved (st : RunState.t) relays followers :
  RunState.isRunning st = false →
  outcome (getFollowers (followQuery world) userPubkey) = Ret followers →
  finalOfRun st relays
  = {| RunState.isRunning := false;
       RunState.results := Some (resultsOf followers relays);
       RunState.overlapResults := Some (calculateOverlap (resultsOf followers relays));
       RunState.progress := 100;
       RunState.currentPhase := "Analysis completed!";
       RunState.error := failureSummary (resultsOf followers relays) |}.
Proof.
  intros Hrun Hret.
  destruct (startTestTry_resolved relays followers Hret) as [Hout Hlog].
  unfold runFinal. rewrite Hrun, startTest_performed.
  rewrite (tryCatch_ret _ _ _ Hout), Hlog, !applyActions_app.
  set (s0 := applyActions st [SetIsRunning true; SetResults None;
                              SetOverlapResults None; SetProgress 0; SetError None]).
  set (s1 := applyActions s0 (performed _)).
  set (s2 := applyActions s1 [SetCurrentPhase _; SetProgress 30]).
  set (s3 := applyActions s2 (probeLogFrom followers (len relays) 0%nat relays)).
  assert (RunState.error s3 = None) as Herr.
  { unfold s3, s2, s1.
    rewrite (proj2 (proj2 (proj2 (applyActions_displayOnly _ _
               (probeLog_displayOnly followers (len relays) 0 relays))))).
    rewrite (proj2 (proj2 (proj2 (applyActions_displayOnly _
               [SetCurrentPhase _; SetProgress 30] ltac:(by repeat constructor))))).
    rewrite (proj2 (proj2 (proj2 (applyActions_displayOnly _ _
               (getFollowers_displayOnly (followQuery world)))))).
    by destruct st. }
  destruct s3 as [r3 rs3 os3 p3 ph3 e3]. simpl in Herr. subst e3.
  by destruct (failureSummary (resultsOf followers relays)).
Qed.
Lemma getFollowers_resolverOnly (query : Exc (list NostrEvent)) :
  Forall (λ a, resolverOnly a = true) (performed (getFollowers query userPubkey)).
Proof.
  unfold getFollowers, getFollowersTry. log_solve.
  match goal with
  | |- context [match ?followEvents with [] => _ | _ :: _ => _ end] =>
      destruct followEvents as [|followEvent rest]
  end; [log_solve|].
  case_bool_decide; log_solve.
Qed.

Lemma omap_probeRequest_none (log : list Action) :
  Forall (λ a, probeRequest a = None) log → omap probeRequest log = [].
Proof.
  induction 1 as [|a log Ha _ IH]; simpl; [done|]. by rewrite Ha.
Qed.

Lemma getFollowers_no_probe (query : Exc (list NostrEvent)) :
  omap probeRequest (performed (getFollowers query userPubkey)) = [].
Proof.
  apply omap_probeRequest_none.
  eapply Forall_impl; [apply getFollowers_resolverOnly|].
  by intros [].
Qed.

Lemma probeLog_requests followers total i relays :
  omap probeRequest (probeLogFrom followers total i relays)
  = map (λ relayUrl, (relayUrl, followers)) relays.
Proof.
  rewrite <- (probeRelays_performed followers total i relays []).
  generalize (@nil RelayPerformanceResult). revert i.
  induction relays as [|relayUrl rest IH]; intros i testResults; simpl.
  - reflexivity.
  - f_equal. apply IH.
Qed.

Lemma getFollowers_throws_Error (query : Exc (list NostrEvent)) err :
  outcome (getFollowers query userPubkey) = Throw err →
  ∃ message, err = ThrownError message.
Proof.
  unfold getFollowers, getFollowersTry. run_unfold.
  destruct query as [[|followEvent rest]|e]; cbn [performed outcome].
  - intros [= <-]. by eexists.
  - case_bool_decide; cbn [performed outcome]; [|discriminate].
    intros [= <-]. by eexists.
  - intros [= <-]. by eexists.
Qed.

(** The state that a run leaves when the followers are not resolved, and
    the log of the run. *)
Lemma startTest_unresolved (st : RunState.t) relays err :
  RunState.isRunning st = false →
  outcome (getFollowers (followQuery world) userPubkey) = Throw err →
  performed (run (RunState.isRunning st) relays)
  = [SetIsRunning true; SetResults None; SetOverlapResults None;
     SetProgress 0; SetError None]
    ++ performed (getFollowers (followQuery world) userPubkey)
    ++ [SetError (Some (errorMessage err "Analysis failed")); SetProgress 0;
        SetIsRunning false].
Proof.
  intros Hrun Hret. rewrite Hrun, startTest_performed. f_equal.
  unfold startTestTry. rewrite (outcome_bind_throw _ _ _ Hret).
  unfold tryCatch. cbn [outcome performed].
  rewrite <- app_assoc. reflexivity.
Qed.

Lemma testRelayPerformance_relay env relayUrl followers :
  relay (testRelayPerformance calculateEventSize env userPubkey relayUrl followers)
  = relayUrl.
Proof.
  unfold testRelayPerformance, testRelayPerformanceTry, mbind, Exc_bind, mret, Exc_ret.
  destruct (importOutcome env) as [[]|e1];
    [destruct (queryOutcome env) as [events|e2]|]; reflexivity.
Qed.

Lemma failureSummary_None (testResults : list RelayPerformanceResult) :
  failureSummary testResults = None ↔
  testResults ≠ [] ∧ Forall (λ r, success r = true) testResults.
Proof.
  unfold failureSummary. cbv zeta.
  set (failedTests := filter (λ r, success r = false) testResults).
  assert (failedTests = [] ↔ Forall (λ r, success r = true) testResults) as Hall.
  { unfold failedTests. split.
    - intros Hnil. apply Forall_forall. intros r Hr.
      destruct (success r) eqn:Hs; [done|].
      exfalso. by eapply (filter_nil_not_elem_of _ _ r Hnil).
    - intros Hall. induction Hall as [|r rs Hr _ IH]; [done|].
      rewrite filter_cons_False by congruence. exact IH. }
  pose proof (length_filter (λ r, success r = false) testResults) as Hle.
  fold failedTests in Hle.
  case_bool_decide as Heq.
  - split; [discriminate|]. intros [Hne Hsucc]. apply Hall in Hsucc.
    rewrite Hsucc in Heq. destruct testResults; [done|discriminate].
  - destruct (0 <? len failedTests) eqn:Hpos.
    + split; [discriminate|]. intros [_ Hsucc]. apply Hall in Hsucc.
      rewrite Hsucc in Hpos. discriminate.
    + apply Z.ltb_ge in Hpos. split; [|done]. intros _.
      assert (failedTests = []) as Hnil
        by (destruct failedTests; [done|unfold len in Hpos; simpl in Hpos; lia]).
      split; [|by apply Hall]. intros ->. by rewrite Hnil in Heq.
Qed.

(** X13.  When the followers are resolved, a run publishes one result per
    configured relay, in the order of the relay list, the result at index
    [i] being that of the probe of relay [i] with the resolved followers:
    a probe that fails does not stop the run.  It publishes the overlap of
    exactly these results, and ends with [isRunning] cleared and the
    progress at 100. *)
Theorem startTest_resolved_results (st : RunState.t)
    (relays followers : list string) :
  RunState.isRunning st = false →
  outcome (getFollowers (followQuery world) userPubkey) = Ret followers →
  ∃ testResults,
    RunState.results (finalOfRun st relays) = Some testResults ∧
    RunState.overlapResults (finalOfRun st relays)
    = Some (calculateOverlap testResults) ∧
    RunState.isRunning (finalOfRun st relays) = false ∧
    RunState.progress (finalOfRun st relays) = 100%Q ∧
    length testResults = length relays ∧
    map relay testResults = relays ∧
    ∀ i relayUrl,
      relays !! i = Some relayUrl →
      testResults !! i
      = Some (testRelayPerformance calculateEventSize (probeEnv world i)
                userPubkey relayUrl followers).
Proof.
  intros Hrun Hret. exists (resultsOf followers relays).
  rewrite (finalOfRun_resolved st relays followers Hrun Hret). simpl.
  repeat split.
  - unfold probeResults. apply length_imap.
  - unfold probeResults. rewrite fmap_imap.
    rewrite (imap_ext _ (λ _ relayUrl, relayUrl)).
    + clear. generalize relays. intros l. induction l as [|x l IH]; [done|].
      simpl. f_equal. exact IH.
    + intros i relayUrl _. simpl. apply testRelayPerformance_relay.
  - intros i relayUrl Hi. unfold probeResults.
    rewrite list_lookup_imap, Hi. reflexivity.
Qed.

(** X14.  When the followers are resolved, a run leaves [error] absent
    exactly when there is at least one relay and every probe succeeded. *)
Theorem startTest_resolved_no_error (st : RunState.t)
    (relays followers : list string) :
  RunState.isRunning st = false →
  outcome (getFollowers (followQuery world) userPubkey) = Ret followers →
  RunState.error (finalOfRun st relays) = None ↔
  relays ≠ [] ∧
  ∀ i relayUrl,
    relays !! i = Some relayUrl →
    success (testRelayPerformance calculateEventSize (probeEnv world i)
               userPubkey relayUrl followers) = true.
Proof.
  intros Hrun Hret.
  rewrite (finalOfRun_resolved st relays followers Hrun Hret). simpl.
  rewrite failureSummary_None. unfold probeResults.
  rewrite Forall_lookup.
  split; intros [Hne Hall]; split.
  - intros ->. by apply Hne.
  - intros i relayUrl Hi. apply (Hall i).
    by rewrite list_lookup_imap, Hi.
  - by destruct relays.
  - intros i r Hr. rewrite list_lookup_imap in Hr.
    destruct (relays !! i) as [relayUrl|] eqn:Hi; [|discriminate].
    injection Hr as <-. by apply Hall.
Qed.

(** X15.  When the followers are resolved and at least one probe failed,
    the run ends with the all-failed message if no probe succeeded, and
    otherwise with the count of failed probes out of the number of
    relays. *)
Theorem startTest_resolved_failures (st : RunState.t)
    (relays followers : list string) :
  RunState.isRunning st = false →
  outcome (getFollowers (followQuery world) userPubkey) = Ret followers →
  let failed := len (filter (λ r, success r = false) (resultsOf followers relays)) in
  0 < failed →
  RunState.error (finalOfRun st relays)
  = Some (if bool_decide (failed = len relays)
          then "All relays failed analysis. Please check your internet connection and try again."
          else pretty failed +:+ " out of " +:+ pretty (len relays)
               +:+ " relays failed analysis.").
Proof.
  intros Hrun Hret failed Hfailed.
  rewrite (finalOfRun_resolved st relays followers Hrun Hret). simpl.
  assert (len (resultsOf followers relays) = len relays) as Hlen
    by (unfold len, probeResults; by rewrite length_imap).
  unfold failureSummary. cbv zeta. fold failed. rewrite Hlen.
  case_bool_decide; [reflexivity|].
  apply Z.ltb_lt in Hfailed. by rewrite Hfailed.
Qed.

(** X16.  When the followers are not resolved, the run sends no probe
    request, publishes neither results nor overlap, resets the progress
    to 0, clears [isRunning], and leaves in [error] the message of the
    [Error] that the resolver threw. *)
Theorem startTest_unresolved_run (st : RunState.t) (relays : list string)
    (err : Thrown) :
  RunState.isRunning st = false →
  outcome (getFollowers (followQuery world) userPubkey) = Throw err →
  omap probeRequest (performed (run (RunState.isRunning st) relays)) = [] ∧
  RunState.results (finalOfRun st relays) = None ∧
  RunState.overlapResults (finalOfRun st relays) = None ∧
  RunState.progress (finalOfRun st relays) = 0%Q ∧
  RunState.isRunning (finalOfRun st relays) = false ∧
  ∃ message, err = ThrownError message ∧
             RunState.error (finalOfRun st relays) = Some message.
Proof.
  intros Hrun Hret.
  pose proof (startTest_unresolved st relays err Hrun Hret) as Hlog.
  destruct (getFollowers_throws_Error _ _ Hret) as [message ->].
  unfold runFinal. rewrite Hlog.
  split.
  { rewrite !omap_app, getFollowers_no_probe. reflexivity. }
  rewrite !applyActions_app.
  set (s0 := applyActions st [SetIsRunning true; SetResults None;
                              SetOverlapResults None; SetProgress 0; SetError None]).
  set (s1 := applyActions s0 (performed _)).
  destruct (applyActions_displayOnly s0 _
              (getFollowers_displayOnly (followQuery world)))
    as (_ & Hres & Hov & _).
  fold s1 in Hres, Hov.
  assert (RunState.results s0 = None ∧ RunState.overlapResults s0 = None)
    as [Hres0 Hov0] by (by destruct st).
  rewrite Hres0 in Hres. rewrite Hov0 in Hov.
  destruct s1 as [r1 rs1 os1 p1 ph1 e1]. simpl in Hres, Hov. subst rs1 os1.
  simpl. repeat split. by exists message.
Qed.

(** X17.  When the followers are resolved, the probe requests of a run are
    one per configured relay, in the order of the relay list, each with
    the resolved followers. *)
Theorem startTest_probe_order (relays followers : list string) :
  outcome (getFollowers (followQuery world) userPubkey) = Ret followers →
  omap probeRequest (performed (run false relays))
  = map (λ relayUrl, (relayUrl, followers)) relays.
Proof.
  intros Hret.
  destruct (startTestTry_resolved relays followers Hret) as [Hout Hlog].
  rewrite startTest_performed, (tryCatch_ret _ _ _ Hout), Hlog.
  rewrite !omap_app, getFollowers_no_probe, probeLog_requests.
  destruct (failureSummary (resultsOf followers relays)); simpl;
    by rewrite !app_nil_r.
Qed.

Lemma probe_progress_range (i total : Z) :
  0 ≤ i < total →
  progressInRange (SetProgress (30 + inject_Z i / inject_Z total * 60)%Q) = true.
Proof.
  intros [Hi Ht]. unfold progressInRange.
  apply andb_true_iff; split; apply Qle_bool_iff;
    destruct total as [|t|t]; try lia;
    unfold Qle, Qplus, Qdiv, Qmult, Qinv, inject_Z; simpl; nia.
Qed.

Lemma probeRelays_progress followers total i remaining testResults :
  Z.of_nat i + len remaining = total →
  Forall (λ a, progressInRange a = true)
    (performed (probeRelays calculateEventSize world userPubkey
                  followers total i remaining testResults)).
Proof.
  revert i testResults.
  induction remaining as [|relayUrl rest IH]; intros i testResults Htotal; simpl.
  - constructor.
  - unfold len in Htotal. simpl in Htotal.
    constructor; [reflexivity|].
    constructor; [apply probe_progress_range; lia|].
    constructor; [reflexivity|].
    apply IH. unfold len. lia.
Qed.

Lemma getFollowers_progress (query : Exc (list NostrEvent)) :
  Forall (λ a, progressInRange a = true) (performed (getFollowers query userPubkey)).
Proof.
  unfold getFollowers, getFollowersTry. log_solve.
  match goal with
  | |- context [match ?followEvents with [] => _ | _ :: _ => _ end] =>
      destruct followEvents as [|followEvent rest]
  end; [log_solve|].
  case_bool_decide; log_solve.
Qed.

Lemma startTest_progress (isRunning : bool) relays :
  Forall (λ a, progressInRange a = true) (performed (run isRunning relays)).
Proof.
  destruct isRunning; [constructor|].
  rewrite startTest_performed.
  apply Forall_app; split; [by repeat constructor|].
  apply Forall_app; split; [|by repeat constructor].
  apply performed_tryCatch; [|intros err; log_solve].
  unfold startTestTry.
  repeat first
    [ apply getFollowers_progress
    | apply probeRelays_progress; lia
    | apply performed_emit; reflexivity
    | apply performed_bind; [|intros ? _] ].
  case_bool_decide; [log_solve|]. destruct (0 <? _); log_solve.
Qed.

(** X18.  Every value that a run passes to [setProgress] lies between 0
    and 100. *)
Theorem startTest_progress_range (isRunning : bool) (relays : list string) (p : Q) :
  SetProgress p
  ∈ performed (startTest calculateEventSize world userPubkey isRunning relays) →
  (0 <= p)%Q ∧ (p <= 100)%Q.
Proof.
  intros Hin.
  pose proof (startTest_progress isRunning relays) as Hall.
  rewrite Forall_forall in Hall. specialize (Hall _ Hin).
  simpl in Hall. apply andb_true_iff in Hall as [H0 H100].
  by rewrite !Qle_bool_iff in *.
Qed.

(** The progress values of the probes of [relays], the first one at
    index [i]. *)
Local Abbreviation probeProgressFrom total i relays :=
  (imap (λ (j : nat) (_ : string),
           (30 + inject_Z (Z.of_nat (i + j)) / inject_Z total * 60)%Q) relays).

Lemma probeLog_progress followers total i relays :
  omap progressUpdate (probeLogFrom followers total i relays)
  = probeProgressFrom total i relays.
Proof.
  rewrite <- (probeRelays_performed followers total i relays []).
  generalize (@nil RelayPerformanceResult). revert i.
  induction relays as [|relayUrl rest IH]; intros i testResults; simpl.
  - reflexivity.
  - rewrite Nat.add_0_r. f_equal. rewrite IH.
    apply imap_ext. intros j r _. simpl. by rewrite Nat.add_succ_r.
Qed.

Lemma probe_progress_mono (i j total : Z) :
  0 ≤ i ≤ j → 0 ≤ total →
  (30 + inject_Z i / inject_Z total * 60 <= 30 + inject_Z j / inject_Z total * 60)%Q.
Proof.
  intros Hij Ht. destruct total as [|t|t]; try lia;
    unfold Qle, Qplus, Qdiv, Qmult, Qinv, inject_Z; simpl; nia.
Qed.

Lemma probe_progress_bounds (i total : Z) :
  0 ≤ i < total →
  (30 <= 30 + inject_Z i / inject_Z total * 60)%Q ∧
  (30 + inject_Z i / inject_Z total * 60 <= 95)%Q.
Proof.
  intros [Hi Ht]. destruct total as [|t|t]; try lia;
    unfold Qle, Qplus, Qdiv, Qmult, Qinv, inject_Z; simpl; split; nia.
Qed.

Lemma probeProgress_sorted total i relays :
  0 ≤ total →
  StronglySorted Qle (probeProgressFrom total i relays).
Proof.
  intros Ht. revert i. induction relays as [|relayUrl rest IH]; intros i; simpl.
  - constructor.
  - constructor.
    + rewrite (imap_ext _ (λ j _, (30 + inject_Z (Z.of_nat (S i + j)) / inject_Z total * 60)%Q)).
      * apply IH.
      * intros j r _. simpl. by rewrite Nat.add_succ_r.
    + apply Forall_lookup. intros j q Hq.
      rewrite list_lookup_imap in Hq.
      destruct (rest !! j); [|discriminate]. injection Hq as <-.
      apply probe_progress_mono; lia.
Qed.

Lemma probeProgress_bounds total i relays q :
  Z.of_nat i + len relays = total →
  q ∈ probeProgressFrom total i relays →
  (30 <= q)%Q ∧ (q <= 95)%Q.
Proof.
  intros Htotal Hq. apply list_elem_of_lookup in Hq as [j Hq].
  rewrite list_lookup_imap in Hq.
  destruct (relays !! j) eqn:Hj; [|discriminate]. injection Hq as <-.
  apply lookup_lt_Some in Hj. unfold len in Htotal.
  apply probe_progress_bounds. lia.
Qed.

(** X19.  When the followers are resolved, the values that a run passes to
    [setProgress] never decrease: 0, 10, 25, 30, one value per relay from
    30 upwards, 95, 100. *)
Theorem startTest_resolved_progress_sorted (relays followers : list string) :
  outcome (getFollowers (followQuery world) userPubkey) = Ret followers →
  StronglySorted Qle (omap progressUpdate (performed (run false relays))).
Proof.
  intros Hret.
  destruct (startTestTry_resolved relays followers Hret) as [Hout Hlog].
  rewrite startTest_performed, (tryCatch_ret _ _ _ Hout), Hlog.
  rewrite (getFollowers_performed userPubkey _ _ Hret).
  rewrite !omap_app, probeLog_progress.
  assert (omap progressUpdate
            (match failureSummary (resultsOf followers relays) with
             | Some message => [SetError (Some message)]
             | None => []
             end) = []) as -> by (by destruct (failureSummary _)).
  simpl. rewrite app_nil_r.
  change (StronglySorted Qle
            ([0%Q; 10%Q; 25%Q; 30%Q]
             ++ probeProgressFrom (len relays) 0%nat relays ++ [95%Q; 100%Q])).
  assert (∀ q, q ∈ probeProgressFrom (len relays) 0%nat relays ++ [95%Q; 100%Q] →
               (30 <= q)%Q ∧ (q <= 100)%Q) as Hlate.
  { intros q [Hq|Hq]%elem_of_app.
    - apply (probeProgress_bounds (len relays) 0 relays) in Hq as [Hlo Hhi]; [|lia].
      split; [exact Hlo|]. eapply Qle_trans; [exact Hhi|]. by vm_compute.
    - apply list_elem_of_In in Hq. simpl in Hq.
      destruct Hq as [<-|[<-|[]]]; split; by vm_compute. }
  apply StronglySorted_app. split; [|split].
  - intros x1 x2 Hx1 Hx2. apply Hlate in Hx2 as [Hlo _].
    eapply Qle_trans; [|exact Hlo].
    apply list_elem_of_In in Hx1. simpl in Hx1.
    destruct Hx1 as [<-|[<-|[<-|[<-|[]]]]]; by vm_compute.
  - repeat (apply SSorted_cons;
            [|repeat (apply Forall_cons_2; [by vm_compute|]); apply Forall_nil_2]).
    apply SSorted_nil.
  - apply StronglySorted_app. split; [|split].
    + intros x1 x2 Hx1 Hx2.
      apply (probeProgress_bounds (len relays) 0 relays) in Hx1 as [_ Hhi]; [|lia].
      eapply Qle_trans; [exact Hhi|].
      apply list_elem_of_In in Hx2. simpl in Hx2.
      destruct Hx2 as [<-|[<-|[]]]; by vm_compute.
    + apply (probeProgress_sorted (len relays) 0 relays). unfold len. lia.
    + repeat (apply SSorted_cons;
              [|repeat (apply Forall_cons_2; [by vm_compute|]); apply Forall_nil_2]).
      apply SSorted_nil.
Qed.

Lemma displayOnly_not_publishing (log : list Action) :
  Forall (λ a, displayOnly a = true) log →
  Forall (λ a, publishesCall a = false) log.
Proof. intros Hlog. eapply Forall_impl; [exact Hlog|]. by intros []. Qed.

(** C4.  In every run, the commit that takes [results] from [null] to a
    list leaves [isRunning] false: [setResults] and [setIsRunning(false)]
    are called with no await between them, so both reach the state in the
    same commit. *)
Theorem startTest_publishes_results_not_running (st : RunState.t)
    (relays : list string) (s : Step) :
  s ∈ runSteps calculateEventSize world userPubkey st relays →
  publishesResults s = true →
  RunState.isRunning (after s) = false.
Proof.
  unfold runSteps. destruct (RunState.isRunning st) eqn:Hrun.
  { intros Hs. inversion Hs. }
  destruct (outcome (getFollowers (followQuery world) userPubkey))
    as [followers|err] eqn:Hret.
  - destruct (startTestTry_resolved relays followers Hret) as [Hout Hlog].
    apply (publishing_commit st _
             ([SetIsRunning true; SetResults None; SetOverlapResults None;
               SetProgress 0; SetError None]
              ++ performed (getFollowers (followQuery world) userPubkey)
              ++ [SetCurrentPhase ("Analyzing " +:+ pretty (len relays) +:+ " relays with "
                                   +:+ pretty (len followers) +:+ " followers...");
                  SetProgress 30]
              ++ probeLogFrom followers (len relays) 0%nat relays)
             ([SetCurrentPhase "Calculating overlap..."; SetProgress 95;
               SetOverlapResults (Some (calculateOverlap (resultsOf followers relays)));
               SetCurrentPhase "Analysis completed!"; SetProgress 100;
               SetResults (Some (resultsOf followers relays))]
              ++ summaryLog (resultsOf followers relays))).
    + rewrite startTest_performed, (tryCatch_ret _ _ _ Hout), Hlog.
      by rewrite <- !app_assoc.
    + apply Forall_app; split; [by repeat constructor|].
      apply Forall_app; split;
        [apply displayOnly_not_publishing, getFollowers_displayOnly|].
      apply Forall_app; split; [by repeat constructor|].
      apply displayOnly_not_publishing, probeLog_displayOnly.
    + apply Forall_app; split; [by repeat constructor|].
      destruct (failureSummary _); by repeat constructor.
  - pose proof (startTest_unresolved st relays err Hrun Hret) as Hlog.
    rewrite Hrun in Hlog.
    apply (publishing_commit st _
             ([SetIsRunning true; SetResults None; SetOverlapResults None;
               SetProgress 0; SetError None]
              ++ performed (getFollowers (followQuery world) userPubkey))
             [SetError (Some (errorMessage err "Analysis failed")); SetProgress 0]).
    + rewrite Hlog. by rewrite <- !app_assoc.
    + apply Forall_app; split; [by repeat constructor|].
      apply displayOnly_not_publishing, getFollowers_displayOnly.
    + by repeat constructor.
Qed.

End OrchestratorRuns.

Lemma startTest_resolved_results_witness :
  ∃ testResults,
    RunState.results (runFinal sampleEventSize sampleWorld "me" RunState.initial
                        ["wss://r1"; "wss://r2"; "wss://r3"]) = Some testResults ∧
    RunState.overlapResults (runFinal sampleEventSize sampleWorld "me" RunState.initial
                               ["wss://r1"; "wss://r2"; "wss://r3"])
    = Some (calculateOverlap testResults) ∧
    RunState.isRunning (runFinal sampleEventSize sampleWorld "me" RunState.initial
                          ["wss://r1"; "wss://r2"; "wss://r3"]) = false ∧
    RunState.progress (runFinal sampleEventSize sampleWorld "me" RunState.initial
                         ["wss://r1"; "wss://r2"; "wss://r3"]) = 100%Q ∧
    length testResults = length ["wss://r1"; "wss://r2"; "wss://r3"] ∧
    map relay testResults = ["wss://r1"; "wss://r2"; "wss://r3"] ∧
    ∀ i relayUrl,
      ["wss://r1"; "wss://r2"; "wss://r3"] !! i = Some relayUrl →
      testResults !! i
      = Some (testRelayPerformance sampleEventSize (probeEnv sampleWorld i)
                "me" relayUrl ["alice"]).
Proof.
  apply (startTest_resolved_results sampleEventSize sampleWorld "me"
           RunState.initial ["wss://r1"; "wss://r2"; "wss://r3"] ["alice"]).
  - reflexivity.
  - vm_compute. reflexivity.
Defined.

Lemma startTest_resolved_no_error_witness :
  RunState.error (runFinal sampleEventSize sampleWorld "me" RunState.initial ["wss://r1"])
  = None ↔
  ["wss://r1"] ≠ [] ∧
  ∀ i relayUrl,
    ["wss://r1"] !! i = Some relayUrl →
    success (testRelayPerformance sampleEventSize (probeEnv sampleWorld i)
               "me" relayUrl ["alice"]) = true.
Proof.
  apply (startTest_resolved_no_error sampleEventSize sampleWorld "me"
           RunState.initial ["wss://r1"] ["alice"]).
  - reflexivity.
  - vm_compute. reflexivity.
Defined.

Lemma startTest_resolved_failures_witness :
  RunState.error (runFinal sampleEventSize sampleWorld "me" RunState.initial
                    ["wss://r1"; "wss://r2"; "wss://r3"])
  = Some "1 out of 3 relays failed analysis.".
Proof.
  apply (startTest_resolved_failures sampleEventSize sampleWorld "me"
           RunState.initial ["wss://r1"; "wss://r2"; "wss://r3"] ["alice"]).
  - reflexivity.
  - vm_compute. reflexivity.
  - vm_compute. reflexivity.
Defined.

Lemma startTest_unresolved_run_witness :
  omap probeRequest
    (performed (startTest sampleEventSize sampleWorldNoFollowList "me"
                  (RunState.isRunning RunState.initial) ["wss://r1"])) = [] ∧
  RunState.results (runFinal sampleEventSize sampleWorldNoFollowList "me"
                      RunState.initial ["wss://r1"]) = None ∧
  RunState.overlapResults (runFinal sampleEventSize sampleWorldNoFollowList "me"
                             RunState.initial ["wss://r1"]) = None ∧
  RunState.progress (runFinal sampleEventSize sampleWorldNoFollowList "me"
                       RunState.initial ["wss://r1"]) = 0%Q ∧
  RunState.isRunning (runFinal sampleEventSize sampleWorldNoFollowList "me"
                        RunState.initial ["wss://r1"]) = false ∧
  ∃ message,
    ThrownError "No follow list found. Please follow some users first."
    = ThrownError message ∧
    RunState.error (runFinal sampleEventSize sampleWorldNoFollowList "me"
                      RunState.initial ["wss://r1"]) = Some message.
Proof.
  apply (startTest_unresolved_run sampleEventSize sampleWorldNoFollowList "me"
           RunState.initial ["wss://r1"]
           (ThrownError "No follow list found. Please follow some users first.")).
  - reflexivity.
  - vm_compute. reflexivity.
Defined.

Lemma startTest_probe_order_witness :
  omap probeRequest
    (performed (startTest sampleEventSize sampleWorld "me" false
                  ["wss://r1"; "wss://r2"; "wss://r3"]))
  = [("wss://r1", ["alice"]); ("wss://r2", ["alice"]); ("wss://r3", ["alice"])].
Proof.
  apply (startTest_probe_order sampleEventSize sampleWorld "me"
           ["wss://r1"; "wss://r2"; "wss://r3"] ["alice"]).
  vm_compute. reflexivity.
Defined.

Lemma startTest_progress_range_witness :
  SetProgress 95 ∈ performed (startTest sampleEventSize sampleWorld "me" false ["wss://r1"]) ∧
  (0 <= 95)%Q ∧ (95 <= 100)%Q.
Proof.
  assert (SetProgress 95
          ∈ performed (startTest sampleEventSize sampleWorld "me" false ["wss://r1"]))
    as Hin.
  { vm_compute. repeat first [left | right]. }
  split; [exact Hin|].
  exact (startTest_progress_range sampleEventSize sampleWorld "me" false
           ["wss://r1"] 95%Q Hin).
Defined.

Lemma startTest_resolved_progress_sorted_witness :
  StronglySorted Qle
    (omap progressUpdate
       (performed (startTest sampleEventSize sampleWorld "me" false
                     ["wss://r1"; "wss://r2"; "wss://r3"]))).
Proof.
  apply (startTest_resolved_progress_sorted sampleEventSize sampleWorld "me"
           ["wss://r1"; "wss://r2"; "wss://r3"] ["alice"]).
  vm_compute. reflexivity.
Defined.

(** ** Relay-list metadata: parsing and fetching *)

Lemma parseRelayTag_app (relays : list Nip65Relay) (tag : list string) :
  parseRelayTag relays tag = relays ++ parseRelayTag [] tag.
Proof.
  unfold parseRelayTag.
  destruct (tag !! 0%nat) as [discriminator|]; [|by rewrite app_nil_r].
  destruct (tag !! 1%nat) as [value|]; [|by rewrite app_nil_r].
  destruct (_ && _); [|by rewrite app_nil_r].
  by repeat case_bool_decide.
Qed.

Lemma elem_of_foldl_parseRelayTag (r : Nip65Relay) (tgs : list (list string))
    (relays : list Nip65Relay) :
  r ∈ foldl parseRelayTag relays tgs ↔
  r ∈ relays ∨ ∃ tag, tag ∈ tgs ∧ r ∈ parseRelayTag [] tag.
Proof.
  revert relays. induction tgs as [|tag tgs IH]; intros relays; simpl.
  - split; [by left|]. intros [H|(tag & Htag & _)]; [done|inversion Htag].
  - rewrite IH, (parseRelayTag_app relays tag), elem_of_app. split.
    + intros [[H|H]|(tag' & Htag & H)].
      * by left.
      * right. exists tag. split; [left|done].
      * right. exists tag'. split; [by right|done].
    + intros [H|(tag' & Htag & H)].
      * left. by left.
      * apply elem_of_cons in Htag as [->|Htag].
        -- left. by right.
        -- right. by exists tag'.
Qed.


(** What one tag contributes. *)
Lemma elem_of_parseRelayTag (r : Nip65Relay) (tag : list string) :
  r ∈ parseRelayTag [] tag ↔
  tag !! 0%nat = Some "r" ∧ tag !! 1%nat = Some (url r) ∧ url r ≠ "" ∧
  read r = negb (bool_decide (tag !! 2%nat = Some "write")) ∧
  write r = negb (bool_decide (tag !! 2%nat = Some "read")).
Proof.
  unfold parseRelayTag.
  destruct (tag !! 0%nat) as [discriminator|];
    [|split; [intros H; inversion H|intros [[=] _]]].
  destruct (tag !! 1%nat) as [value|];
    [|split; [intros H; inversion H|intros (_ & [=] & _)]].
  destruct (bool_decide (discriminator = "r")) eqn:Hd; simpl;
    [apply bool_decide_eq_true in Hd as ->
    |apply bool_decide_eq_false in Hd;
     split; [intros H; inversion H|intros ([= ->] & _); done]].
  destruct (bool_decide (value = "")) eqn:Hv; simpl;
    [apply bool_decide_eq_true in Hv as ->;
     split; [intros H; inversion H|intros (_ & [= <-] & Hne & _); done]
    |apply bool_decide_eq_false in Hv].
  destruct r as [u rd wr]; simpl.
  repeat case_bool_decide; simpl; rewrite list_elem_of_singleton; split;
    try (intros [= -> -> ->]; by repeat split);
    try (intros (_ & [= ->] & _ & -> & ->); reflexivity);
    congruence.
Qed.

Lemma elem_of_parseRelayTags (r : Nip65Relay) (event : NostrEvent) :
  r ∈ parseRelayTags event ↔
  ∃ tag, tag ∈ tags event ∧ r ∈ parseRelayTag [] tag.
Proof.
  unfold parseRelayTags. rewrite elem_of_foldl_parseRelayTag. split.
  - intros [H|H]; [inversion H|done].
  - by right.
Qed.

(** X20.  Every relay that [parseRelayTags] returns comes from a tag whose
    first element is ["r"] and whose second element, the relay's URL, is
    not empty; the relay is readable unless the tag's marker is
    ["write"], writable unless it is ["read"], hence never neither. *)
Theorem parseRelayTags_sound (event : NostrEvent) (r : Nip65Relay) :
  r ∈ parseRelayTags event →
  url r ≠ "" ∧ (read r = true ∨ write r = true) ∧
  ∃ tag, tag ∈ tags event ∧
         tag !! 0%nat = Some "r" ∧ tag !! 1%nat = Some (url r) ∧
         (read r = false ↔ tag !! 2%nat = Some "write") ∧
         (write r = false ↔ tag !! 2%nat = Some "read").
Proof.
  intros Hr. apply elem_of_parseRelayTags in Hr as (tag & Htag & Hr).
  apply elem_of_parseRelayTag in Hr as (H0 & H1 & Hne & Hread & Hwrite).
  split; [exact Hne|]. split.
  - rewrite Hread, Hwrite. repeat case_bool_decide; simpl; try tauto. congruence.
  - exists tag. repeat split; try assumption.
    + intros Hf. rewrite Hf in Hread. symmetry in Hread.
      by apply negb_false_iff, bool_decide_eq_true in Hread.
    + intros Hm. rewrite Hread. by rewrite bool_decide_eq_true_2.
    + intros Hf. rewrite Hf in Hwrite. symmetry in Hwrite.
      by apply negb_false_iff, bool_decide_eq_true in Hwrite.
    + intros Hm. rewrite Hwrite. by rewrite bool_decide_eq_true_2.
Qed.

Lemma parseRelayTags_sound_witness :
  let r := {| url := "wss://b.example"; read := true; write := false |} in
  r ∈ parseRelayTags sampleRelayList ∧
  url r ≠ "" ∧ (read r = true ∨ write r = true) ∧
  ∃ tag, tag ∈ tags sampleRelayList ∧
         tag !! 0%nat = Some "r" ∧ tag !! 1%nat = Some (url r) ∧
         (read r = false ↔ tag !! 2%nat = Some "write") ∧
         (write r = false ↔ tag !! 2%nat = Some "read").
Proof.
  assert ({| url := "wss://b.example"; read := true; write := false |}
          ∈ parseRelayTags sampleRelayList) as Hin
    by (vm_compute; repeat first [left | right]).
  split; [exact Hin|].
  exact (parseRelayTags_sound sampleRelayList _ Hin).
Defined.



(** X22.  [fetchRelayList] always leaves [isLoading] cleared.  When it
    resolves, [error] is absent and the relays are those parsed from the
    first event, at least one; when it rejects, it throws an [Error] whose
    message is also left in [error]. *)
Theorem fetchRelayList_settles (relayQuery : Exc (list NostrEvent))
    (st : RelayListState.t) :
  RelayListState.isLoading (fetchRelayList relayQuery st).1 = false ∧
  match (fetchRelayList relayQuery st).2 with
  | Ret relays =>
      RelayListState.error (fetchRelayList relayQuery st).1 = None ∧
      relays ≠ [] ∧
      ∃ relayListEvent rest,
        relayQuery = Ret (relayListEvent :: rest) ∧
        relays = parseRelayTags relayListEvent
  | Throw err =>
      ∃ message,
        err = ThrownError message ∧
        RelayListState.error (fetchRelayList relayQuery st).1 = Some message
  end.
Proof.
  unfold fetchRelayList, fetchRelayListTry, mbind, Exc_bind, mret, Exc_ret.
  destruct relayQuery as [[|relayListEvent rest]|err]; simpl.
  - split; [done|]. by eexists.
  - case_bool_decide as Hlen; simpl.
    + split; [done|]. by eexists.
    + repeat split.
      * intros Hnil. apply Hlen. by rewrite Hnil.
      * by exists relayListEvent, rest.
  - split; [done|]. by eexists.
Qed.

(** ** The page: editing the list of relays *)

Section PageFacts.

Variable trim : string → string.

(** X23.  [addRelay] never introduces a duplicate: a duplicate-free list
    of relays stays duplicate-free. *)
Theorem addRelay_NoDup (st : PageState) :
  NoDup (testRelays st) → NoDup (testRelays (addRelay trim st)).
Proof.
  intros Hnd. unfold addRelay.
  case_bool_decide as Hblank; [exact Hnd|]. cbv zeta. cbn [testRelays].
  case_bool_decide as Hin; simpl; [exact Hnd|].
  apply NoDup_app. repeat split; [exact Hnd| |apply NoDup_singleton].
  intros x Hx Hx'. apply list_elem_of_singleton in Hx' as ->. by apply Hin.
Qed.

(** X24.  With an input that is not blank, [addRelay] clears the input
    and makes sure the list holds the relay's URL: the trimmed input
    itself if it starts with ["wss://"] or ["ws://"], and the trimmed
    input prefixed with ["wss://"] otherwise.  The list is left as it is if
    it already holds that URL, and gets it appended at the end if not; the
    rest of the state is unchanged. *)
Theorem addRelay_adds (st : PageState) :
  trim (newRelay st) ≠ "" →
  let input := trim (newRelay st) in
  let relayUrl :=
    if String.prefix "wss://" input || String.prefix "ws://" input
    then input else "wss://" +:+ input in
  newRelay (addRelay trim st) = "" ∧
  testRelays (addRelay trim st)
  = (if bool_decide (relayUrl ∈ testRelays st)
     then testRelays st else testRelays st ++ [relayUrl]) ∧
  relayUrl ∈ testRelays (addRelay trim st) ∧
  (String.prefix "wss://" relayUrl = true ∨ String.prefix "ws://" relayUrl = true) ∧
  hasLoadedNip65 (addRelay trim st) = hasLoadedNip65 st ∧
  showManualEntry (addRelay trim st) = showManualEntry st.
Proof.
  intros Hblank. cbv zeta. unfold addRelay.
  rewrite bool_decide_eq_false_2 by exact Hblank. cbv zeta.
  cbn [testRelays newRelay hasLoadedNip65 showManualEntry].
  set (input := trim (newRelay st)).
  assert ((if negb (String.prefix "wss://" input) && negb (String.prefix "ws://" input)
           then "wss://" +:+ input else input)
          = (if String.prefix "wss://" input || String.prefix "ws://" input
             then input else "wss://" +:+ input)) as ->
    by (by destruct (String.prefix "wss://" input), (String.prefix "ws://" input)).
  set (relayUrl := if String.prefix "wss://" input || String.prefix "ws://" input
                   then input else "wss://" +:+ input).
  assert (String.prefix "wss://" relayUrl = true ∨ String.prefix "ws://" relayUrl = true)
    as Hscheme.
  { unfold relayUrl.
    destruct (String.prefix "wss://" input) eqn:Hwss; simpl; [by left|].
    destruct (String.prefix "ws://" input) eqn:Hws; simpl; [by right|].
    left. clear. by destruct input. }
  split; [reflexivity|]. split.
  { by case_bool_decide. }
  split; [|by repeat split].
  case_bool_decide as Hin; simpl; [exact Hin|].
  apply elem_of_app. right. left.
Qed.

End PageFacts.

Lemma addRelay_NoDup_witness :
  let st := {| testRelays := ["wss://relay.damus.io"]; newRelay := " relay.damus.io";
               hasLoadedNip65 := false; showManualEntry := true |} in
  NoDup (testRelays st) ∧ NoDup (testRelays (addRelay sampleTrim st)).
Proof.
  assert (NoDup ["wss://relay.damus.io"]) as Hnd
    by (apply (bool_decide_unpack _); vm_compute; exact I).
  split; [exact Hnd|].
  exact (addRelay_NoDup sampleTrim
           {| testRelays := ["wss://relay.damus.io"]; newRelay := " relay.damus.io";
              hasLoadedNip65 := false; showManualEntry := true |} Hnd).
Defined.

Lemma addRelay_adds_witness :
  let st := {| testRelays := ["wss://relay.damus.io"]; newRelay := " ws://localhost";
               hasLoadedNip65 := false; showManualEntry := true |} in
  newRelay (addRelay sampleTrim st) = "" ∧
  testRelays (addRelay sampleTrim st) = ["wss://relay.damus.io"; "ws://localhost"] ∧
  "ws://localhost" ∈ testRelays (addRelay sampleTrim st) ∧
  (String.prefix "wss://" "ws://localhost" = true ∨
   String.prefix "ws://" "ws://localhost" = true) ∧
  hasLoadedNip65 (addRelay sampleTrim st) = hasLoadedNip65 st ∧
  showManualEntry (addRelay sampleTrim st) = showManualEntry st.
Proof.
  apply (addRelay_adds sampleTrim
           {| testRelays := ["wss://relay.damus.io"]; newRelay := " ws://localhost";
              hasLoadedNip65 := false; showManualEntry := true |}).
  vm_compute. discriminate.
Defined.

(** The same with an input without a scheme. *)
Example addRelay_prefixes :
  testRelays (addRelay sampleTrim
                {| testRelays := ["wss://relay.damus.io"]; newRelay := " nos.lol";
                   hasLoadedNip65 := false; showManualEntry := true |})
  = ["wss://relay.damus.io"; "wss://nos.lol"].
Proof. vm_compute. reflexivity. Qed.

Lemma filterByIndex_all {A} (keep : nat → bool) (k : nat) (xs : list A) :
  (∀ i, (k ≤ i)%nat → keep i = true) → filterByIndex keep k xs = xs.
Proof.
  revert k. induction xs as [|x xs IH]; intros k Hkeep; simpl; [done|].
  rewrite Hkeep by lia. f_equal. apply IH. intros i Hi. apply Hkeep. lia.
Qed.

Lemma filterByIndex_delete {A} (keep : nat → bool) (k index : nat) (xs : list A) :
  (∀ i, keep i = negb (i =? k + index)%nat) →
  filterByIndex keep k xs = take index xs ++ drop (S index) xs.
Proof.
  revert k index. induction xs as [|x xs IH]; intros k index Hkeep; simpl.
  - by destruct index.
  - rewrite Hkeep. destruct index as [|index]; simpl.
    + rewrite Nat.add_0_r, Nat.eqb_refl. simpl.
      apply filterByIndex_all. intros i Hi. rewrite Hkeep, Nat.add_0_r.
      apply negb_true_iff, Nat.eqb_neq. lia.
    + assert ((k =? k + S index)%nat = false) as -> by (apply Nat.eqb_neq; lia).
      simpl. f_equal. apply IH. intros i. rewrite Hkeep. do 2 f_equal. lia.
Qed.

(** X25.  [removeRelay] deletes the relay at the given index and keeps the
    others in order; with an index past the end, the list is unchanged.
    Nothing else in the state changes. *)
Theorem removeRelay_deletes (index : nat) (st : PageState) :
  testRelays (removeRelay index st)
  = take index (testRelays st) ++ drop (S index) (testRelays st) ∧
  ((length (testRelays st) ≤ index)%nat →
   testRelays (removeRelay index st) = testRelays st) ∧
  newRelay (removeRelay index st) = newRelay st ∧
  hasLoadedNip65 (removeRelay index st) = hasLoadedNip65 st ∧
  showManualEntry (removeRelay index st) = showManualEntry st.
Proof.
  assert (testRelays (removeRelay index st)
          = take index (testRelays st) ++ drop (S index) (testRelays st)) as Heq.
  { unfold removeRelay; simpl. by apply filterByIndex_delete. }
  repeat split; [exact Heq|]. intros Hlen. rewrite Heq.
  rewrite take_ge, drop_ge by lia. apply app_nil_r.
Qed.

Lemma uniqueInOrder_from (xs seen : list string) :
  NoDup seen →
  ∃ added,
    foldl (λ seen x, if bool_decide (x ∈ seen) then seen else seen ++ [x]) seen xs
    = seen ++ added ∧
    NoDup (seen ++ added) ∧
    added `sublist_of` xs ∧
    ∀ x, x ∈ xs → x ∈ seen ++ added.
Proof.
  revert seen. induction xs as [|x xs IH]; intros seen Hnd; simpl.
  - exists []. rewrite app_nil_r. repeat split; [done|done|]. intros x Hx. inversion Hx.
  - case_bool_decide as Hin.
    + destruct (IH seen Hnd) as (added & -> & Hnd' & Hsub & Hall).
      exists added. repeat split; [done|by apply sublist_cons|].
      intros y [->|Hy]%elem_of_cons; [|by apply Hall].
      apply elem_of_app. by left.
    + assert (NoDup (seen ++ [x])) as Hnd1.
      { apply NoDup_app. repeat split; [exact Hnd| |apply NoDup_singleton].
        intros y Hy Hy'. apply list_elem_of_singleton in Hy' as ->. by apply Hin. }
      destruct (IH (seen ++ [x]) Hnd1) as (added & -> & Hnd' & Hsub & Hall).
      exists (x :: added). rewrite <- app_assoc in *. simpl in *.
      repeat split; [done|by apply sublist_skip|].
      intros y [->|Hy]%elem_of_cons; [|by apply Hall].
      apply elem_of_app. right. left.
Qed.

Lemma uniqueInOrder_spec_aux (xs : list string) :
  NoDup (uniqueInOrder xs) ∧ ∀ x, x ∈ uniqueInOrder xs ↔ x ∈ xs.
Proof.
  unfold uniqueInOrder.
  destruct (uniqueInOrder_from xs [] (NoDup_nil_2)) as (added & -> & Hnd & Hsub & Hall).
  simpl in *. repeat split; try assumption.
  - intros Hx. by eapply elem_of_sublist.
  - apply Hall.
Qed.

Lemma fetchRelayList_resolved (relayQuery : Exc (list NostrEvent))
    (hook : RelayListState.t) (relays : list Nip65Relay) :
  (fetchRelayList relayQuery hook).2 = Ret relays →
  ∃ relayListEvent, relays ≠ [] ∧ relays = parseRelayTags relayListEvent.
Proof.
  unfold fetchRelayList, fetchRelayListTry, mbind, Exc_bind, mret, Exc_ret.
  destruct relayQuery as [[|relayListEvent rest]|err]; simpl; try discriminate.
  case_bool_decide as Hlen; simpl; [discriminate|].
  intros [= <-]. exists relayListEvent. split; [|done].
  intros Hnil. apply Hlen. by rewrite Hnil.
Qed.

Lemma parseRelayTags_url_nonempty (event : NostrEvent) (r : Nip65Relay) :
  r ∈ parseRelayTags event → url r ≠ "".
Proof.
  intros Hr. apply elem_of_parseRelayTags in Hr as (tag & _ & Hr).
  by apply elem_of_parseRelayTag in Hr as (_ & _ & Hne & _).
Qed.

(** Values already seen are skipped; the others are handled as if nothing
    had been seen. *)
Lemma uniqueInOrder_seen (n : nat) (xs seen : list string) :
  (length xs ≤ n)%nat →
  foldl (λ seen x, if bool_decide (x ∈ seen) then seen else seen ++ [x]) seen xs
  = seen ++ uniqueInOrder (filter (λ y, y ∉ seen) xs).
Proof.
  unfold uniqueInOrder. revert xs seen.
  induction n as [|n IH]; intros xs seen Hlen.
  { destruct xs; [|simpl in Hlen; lia]. simpl. by rewrite app_nil_r. }
  destruct xs as [|y xs]; [simpl; by rewrite app_nil_r|].
  simpl in Hlen. simpl. rewrite filter_cons.
  case_bool_decide as Hin.
  - rewrite decide_False by (intros Hnot; by apply Hnot).
    apply IH. lia.
  - rewrite decide_True by done. simpl.
    rewrite (IH xs (seen ++ [y])) by lia.
    rewrite (IH (filter (λ y0, y0 ∉ seen) xs) [y])
      by (pose proof (length_filter (λ y0, y0 ∉ seen) xs); lia).
    rewrite <- app_assoc. do 3 f_equal.
    rewrite list_filter_filter. apply list_filter_iff. intros x.
    rewrite not_elem_of_app. tauto.
Qed.

Lemma uniqueInOrder_cons (x : string) (xs : list string) :
  uniqueInOrder (x :: xs) = x :: uniqueInOrder (filter (λ y, y ≠ x) xs).
Proof.
  unfold uniqueInOrder at 1. simpl.
  rewrite (uniqueInOrder_seen (length xs) xs [x]) by lia. simpl. do 2 f_equal.
  apply list_filter_iff. intros y. by rewrite list_elem_of_singleton.
Qed.

Lemma filter_url_map (relayUrl : string) (relays : list Nip65Relay) :
  filter (λ y, y ≠ relayUrl) (map url relays)
  = map url (filter (λ r, url r ≠ relayUrl) relays).
Proof.
  induction relays as [|r relays IH]; [done|]. simpl.
  rewrite !filter_cons. case_decide; simpl; by rewrite IH.
Qed.

(** X26.  [loadNip65Relays] keeps every fetched URL once, at its first
    occurrence: the stored list starts with the URL of the first fetched
    relay and goes on with what would be stored for the later relays that
    have another URL; for no relay it is empty. *)
Theorem loadNip65Relays_first_occurrence (r : Nip65Relay) (relays : list Nip65Relay)
    (seenHasLoadedNip65 showToast : bool) (st : PageState) :
  testRelays (loadNip65Relays (Ret (r :: relays)) seenHasLoadedNip65 showToast st).1
  = url r
    :: testRelays (loadNip65Relays (Ret (filter (λ r', url r' ≠ url r) relays))
                     seenHasLoadedNip65 showToast st).1 ∧
  testRelays (loadNip65Relays (Ret []) seenHasLoadedNip65 showToast st).1 = [].
Proof.
  split; [|reflexivity]. simpl.
  by rewrite uniqueInOrder_cons, filter_url_map.
Qed.

(** The second occurrence is the one dropped. *)
Example loadNip65Relays_keeps_first :
  testRelays (loadNip65Relays
                (Ret [ {| url := "wss://a"; read := true; write := true |};
                       {| url := "wss://b"; read := true; write := true |};
                       {| url := "wss://a"; read := true; write := false |} ])
                false true
                {| testRelays := []; newRelay := ""; hasLoadedNip65 := false;
                   showManualEntry := false |}).1
  = ["wss://a"; "wss://b"].
Proof. vm_compute. reflexivity. Qed.

(** X27.  Once [fetchRelayList] has resolved, [loadNip65Relays] replaces
    the list of relays by the URLs of the fetched relays without
    duplicates: the new list is not empty, has no duplicate, holds exactly
    the fetched URLs, none of them empty, and [hasLoadedNip65] is set. *)
Theorem loadNip65Relays_loaded (relayQuery : Exc (list NostrEvent))
    (hook : RelayListState.t) (relays : list Nip65Relay)
    (seenHasLoadedNip65 showToast : bool) (st : PageState) :
  (fetchRelayList relayQuery hook).2 = Ret relays →
  let st' := (loadNip65Relays (Ret relays) seenHasLoadedNip65 showToast st).1 in
  testRelays st' ≠ [] ∧ NoDup (testRelays st') ∧
  hasLoadedNip65 st' = true ∧
  ∀ relayUrl, relayUrl ∈ testRelays st' ↔
              relayUrl ≠ "" ∧ ∃ r, r ∈ relays ∧ url r = relayUrl.
Proof.
  intros Hfetch. simpl.
  destruct (uniqueInOrder_spec_aux (map url relays)) as (Hnd & Hmem).
  pose proof (fetchRelayList_resolved relayQuery hook relays Hfetch)
    as (relayListEvent & Hne & ->).
  split; [|split; [exact Hnd|split; [reflexivity|]]].
  - intros Hnil. destruct (parseRelayTags relayListEvent) as [|r rs] eqn:Hrs; [done|].
    assert (url r ∈ uniqueInOrder (map url (r :: rs))) as Hin
      by (apply Hmem; left).
    rewrite Hnil in Hin. inversion Hin.
  - intros relayUrl. rewrite Hmem, list_elem_of_fmap. split.
    + intros (r & -> & Hr). split; [|by exists r].
      by apply parseRelayTags_url_nonempty in Hr.
    + intros [_ (r & Hr & <-)]. by exists r.
Qed.

Lemma loadNip65Relays_loaded_witness :
  let st := {| testRelays := []; newRelay := ""; hasLoadedNip65 := false;
               showManualEntry := false |} in
  let relays := parseRelayTags sampleRelayList in
  let st' := (loadNip65Relays (Ret relays) false true st).1 in
  testRelays st' ≠ [] ∧ NoDup (testRelays st') ∧
  hasLoadedNip65 st' = true ∧
  ∀ relayUrl, relayUrl ∈ testRelays st' ↔
              relayUrl ≠ "" ∧ ∃ r, r ∈ relays ∧ url r = relayUrl.
Proof.
  apply (loadNip65Relays_loaded (Ret [sampleRelayList]) RelayListState.initial
           (parseRelayTags sampleRelayList) false true
           {| testRelays := []; newRelay := ""; hasLoadedNip65 := false;
              showManualEntry := false |}).
  vm_compute. reflexivity.
Defined.

(** ** The page: the best relay of a run *)

Section Reduce.

Context {A : Type} (pick : A → A → A) (atLeastAsGood : A → A → Prop).

Hypothesis atLeastAsGood_trans :
  ∀ a b c, atLeastAsGood a b → atLeastAsGood b c → atLeastAsGood a c.
Hypothesis pick_spec :
  ∀ prev curr,
    (pick prev curr = prev ∧ atLeastAsGood prev curr) ∨
    (pick prev curr = curr ∧ atLeastAsGood curr prev).
Hypothesis atLeastAsGood_refl : ∀ a, atLeastAsGood a a.

Lemma foldl_pick_best (x : A) (xs : list A) :
  foldl pick x xs ∈ x :: xs ∧
  ∀ y, y ∈ x :: xs → atLeastAsGood (foldl pick x xs) y.
Proof.
  revert x. induction xs as [|z xs IH]; intros x; simpl.
  - split; [left|]. intros y Hy. apply list_elem_of_singleton in Hy as ->.
    apply atLeastAsGood_refl.
  - destruct (IH (pick x z)) as [Hin Hbest]. split.
    + apply elem_of_cons in Hin as [Hin|Hin]; [|by right; right].
      rewrite Hin. destruct (pick_spec x z) as [[-> _]|[-> _]]; [left|right; left].
    + intros y Hy.
      assert (atLeastAsGood (foldl pick (pick x z) xs) (pick x z)) as Hpick
        by (apply Hbest; left).
      apply elem_of_cons in Hy as [->|Hy].
      * eapply atLeastAsGood_trans; [exact Hpick|].
        destruct (pick_spec x z) as [[-> _]|[-> H]]; [apply atLeastAsGood_refl|exact H].
      * apply elem_of_cons in Hy as [->|Hy]; [|apply Hbest; by right].
        eapply atLeastAsGood_trans; [exact Hpick|].
        destruct (pick_spec x z) as [[-> H]|[-> _]]; [exact H|apply atLeastAsGood_refl].
Qed.

End Reduce.

(** X28.  The relay shown as "Fastest Latency" is one of the successful
    results, and no successful result has a smaller latency. *)
Theorem fastestLatency_is_minimal (results : list RelayPerformanceResult)
    (fastest : RelayPerformanceResult) :
  fastestLatency results = Some fastest →
  fastest ∈ results ∧ success fastest = true ∧
  ∀ r, r ∈ results → success r = true → latency fastest ≤ latency r.
Proof.
  unfold fastestLatency. cbv zeta.
  destruct (1 <? _); [|discriminate].
  destruct (filter (λ r, success r = true) results) as [|x xs] eqn:Hsucc;
    [discriminate|].
  simpl. intros [= <-].
  destruct (foldl_pick_best
              (λ prev curr, if latency prev <? latency curr then prev else curr)
              (λ a b, latency a ≤ latency b)
              ltac:(intros a b c; simpl; lia)
              ltac:(intros prev curr; simpl;
                    destruct (latency prev <? latency curr) eqn:Hlt;
                    [left; split; [done|apply Z.ltb_lt in Hlt; lia]
                    |right; split; [done|apply Z.ltb_ge in Hlt; lia]])
              ltac:(intros a; simpl; lia) x xs) as [Hin Hbest].
  rewrite <- Hsucc in Hin, Hbest.
  apply list_elem_of_filter in Hin as [Hs Hin].
  repeat split; try assumption.
  intros r Hr Hsr. apply Hbest. by apply list_elem_of_filter.
Qed.

(** X29.  The relay shown as "Highest Bandwidth" is one of the successful
    results, and no successful result has a larger bandwidth. *)
Theorem highestBandwidth_is_maximal (results : list RelayPerformanceResult)
    (highest : RelayPerformanceResult) :
  highestBandwidth results = Some highest →
  highest ∈ results ∧ success highest = true ∧
  ∀ r, r ∈ results → success r = true → (bandwidth r <= bandwidth highest)%Q.
Proof.
  unfold highestBandwidth. cbv zeta.
  destruct (1 <? _); [|discriminate].
  destruct (filter (λ r, success r = true) results) as [|x xs] eqn:Hsucc;
    [discriminate|].
  simpl. intros [= <-].
  destruct (foldl_pick_best
              (λ prev curr,
                 if Qlt_le_dec (bandwidth curr) (bandwidth prev) then prev else curr)
              (λ a b, (bandwidth b <= bandwidth a)%Q)
              ltac:(intros a b c Hab Hbc; simpl in *; by eapply Qle_trans)
              ltac:(intros prev curr; simpl;
                    destruct (Qlt_le_dec (bandwidth curr) (bandwidth prev)) as [Hlt|Hle];
                    [left; split; [done|by apply Qlt_le_weak]
                    |right; split; [done|exact Hle]])
              ltac:(intros a; simpl; apply Qle_refl) x xs) as [Hin Hbest].
  rewrite <- Hsucc in Hin, Hbest.
  apply list_elem_of_filter in Hin as [Hs Hin].
  repeat split; try assumption.
  intros r Hr Hsr. apply Hbest. by apply list_elem_of_filter.
Qed.

Lemma fastestLatency_is_minimal_witness :
  ∃ fastest,
    fastestLatency sampleFooterResults = Some fastest ∧
    relay fastest = "wss://fast" ∧
    fastest ∈ sampleFooterResults ∧ success fastest = true ∧
    ∀ r, r ∈ sampleFooterResults → success r = true → latency fastest ≤ latency r.
Proof.
  destruct (fastestLatency sampleFooterResults) as [fastest|] eqn:Hfast;
    [|vm_compute in Hfast; discriminate Hfast].
  exists fastest. split; [reflexivity|].
  split; [vm_compute in Hfast; injection Hfast as <-; reflexivity|].
  exact (fastestLatency_is_minimal sampleFooterResults fastest Hfast).
Defined.

Lemma highestBandwidth_is_maximal_witness :
  ∃ highest,
    highestBandwidth sampleFooterResults = Some highest ∧
    relay highest = "wss://slow" ∧
    highest ∈ sampleFooterResults ∧ success highest = true ∧
    ∀ r, r ∈ sampleFooterResults → success r = true →
         (bandwidth r <= bandwidth highest)%Q.
Proof.
  destruct (highestBandwidth sampleFooterResults) as [highest|] eqn:Hhigh;
    [|vm_compute in Hhigh; discriminate Hhigh].
  exists highest. split; [reflexivity|].
  split; [vm_compute in Hhigh; injection Hhigh as <-; reflexivity|].
  exact (highestBandwidth_is_maximal sampleFooterResults highest Hhigh).
Defined.

(** The states of the hook during the run of one relay: running without
    results at the two awaits, idle with results at the return. *)
Example runSteps_one_relay :
  map (λ s, (RunState.isRunning (after s),
             bool_decide (is_Some (RunState.results (after s)))))
      (runSteps sampleEventSize sampleWorld "me" RunState.initial ["wss://r1"])
  = [(true, false); (true, false); (false, true)].
Proof. vm_compute. reflexivity. Qed.

Lemma startTest_publishes_results_not_running_witness :
  ∃ s, s ∈ runSteps sampleEventSize sampleWorld "me" RunState.initial ["wss://r1"] ∧
       publishesResults s = true ∧
       RunState.isRunning (after s) = false.
Proof.
  pose proof (find_some publishesResults
                (runSteps sampleEventSize sampleWorld "me" RunState.initial ["wss://r1"]))
    as Hsome.
  destruct (find publishesResults _) as [s|] eqn:Hfind;
    [|vm_compute in Hfind; discriminate Hfind].
  destruct (Hsome s eq_refl) as [Hin Hpub].
  apply list_elem_of_In in Hin.
  exists s. split; [exact Hin|]. split; [exact Hpub|].
  exact (startTest_publishes_results_not_running sampleEventSize sampleWorld "me"
           RunState.initial ["wss://r1"] s Hin Hpub).
Defined.
